(** * Screen connection registry and playlist broadcast

    A shallow embedding of the WebSocket side of the signage server: the
    module-level [screenConnections] map, the [message] and [close]
    listeners installed by [registerRoutes], and the dispatch loop of
    [POST /api/broadcasts].  Two copies of the routes file exist; they share
    the player listeners and the dispatch loop, and the second one installs
    an extra [REGISTER_SCREEN] listener.  A third file, [routes_new.ts],
    holds the [broadcastToScreens] helper. *)

From Stdlib Require Import List String ZArith Bool Lia PeanoNat.
Import ListNotations.
Local Open Scope string_scope.
Local Open Scope list_scope.
Set Warnings "-register-all".

(** ** JavaScript values *)

(** What [JSON.parse] hands to the listeners.  Arrays and objects carry the
    address they were allocated at, because a [Map] compares such keys by
    reference.  [VUndefined] is never produced by the parser; it is what a
    read of a missing property yields.  Numbers are the integral ones. *)
Definition addr := nat.

Inductive value : Type :=
| VUndefined
| VNull
| VBool (b : bool)
| VNum (z : Z)
| VStr (s : string)
| VArr (a : addr) (elems : list value)
| VObj (a : addr) (fields : list (string * value)).

Inductive js_error : Type :=
| SyntaxError
| TypeError
| ValidationError
| StorageError
| SendError.

Inductive completion (A : Type) : Type :=
| Normal (a : A)
| Throw (e : js_error).
Arguments Normal {A} a.
Arguments Throw {A} e.

(** The own property [p] of an object literal; the parser keeps the last of
    several members with one name. *)
Fixpoint lookup_field (fields : list (string * value)) (p : string) : option value :=
  match fields with
  | [] => None
  | (q, v) :: rest =>
      match lookup_field rest p with
      | Some w => Some w
      | None => if String.eqb q p then Some v else None
      end
  end.

(** [v.p], and equally [const { p } = v], for the property names the
    listeners read ([type], [payload], [deviceKey], [status], [screenId]):
    none of them is inherited, [null] and [undefined] cannot be read from. *)
Definition get_prop (v : value) (p : string) : completion value :=
  match v with
  | VUndefined | VNull => Throw TypeError
  | VObj _ fields =>
      Normal (match lookup_field fields p with Some w => w | None => VUndefined end)
  | VBool _ | VNum _ | VStr _ | VArr _ _ => Normal VUndefined
  end.

(** [if (v)] *)
Definition truthy (v : value) : bool :=
  match v with
  | VUndefined | VNull => false
  | VBool b => b
  | VNum z => negb (Z.eqb z 0)
  | VStr s => negb (String.eqb s "")
  | VArr _ _ | VObj _ _ => true
  end.

(** [v === 'literal'] *)
Definition strict_eq_str (v : value) (lit : string) : bool :=
  match v with
  | VStr s => String.eqb s lit
  | _ => false
  end.

(** Whether [`${v}`] yields a string.  An object made by the parser has no
    callable [toString] once it has a member of that name, and its [valueOf]
    gives no primitive, so the conversion raises a [TypeError]; an array is
    joined, which converts every element but [null]. *)
Fixpoint printable (v : value) : bool :=
  match v with
  | VArr _ elems => forallb printable elems
  | VObj _ fields =>
      match lookup_field fields "toString" with
      | Some _ => false
      | None => true
      end
  | VUndefined | VNull | VBool _ | VNum _ | VStr _ => true
  end.

(** ** The insertion-ordered [Map] *)

(** A [Map] key: primitives by value, arrays and objects by reference.  A
    reference comes with what the listeners later need of the object it
    names: whether it converts to a string. *)
Inductive jskey : Type :=
| KUndefined
| KNull
| KBool (b : bool)
| KNum (z : Z)
| KStr (s : string)
| KRef (a : addr) (converts : bool).

Definition to_key (v : value) : jskey :=
  match v with
  | VUndefined => KUndefined
  | VNull => KNull
  | VBool b => KBool b
  | VNum z => KNum z
  | VStr s => KStr s
  | VArr a _ | VObj a _ => KRef a (printable v)
  end.

(** [`${k}`] for a key. *)
Definition key_printable (k : jskey) : bool :=
  match k with
  | KRef _ converts => converts
  | _ => true
  end.

Definition key_eqb (k1 k2 : jskey) : bool :=
  match k1, k2 with
  | KUndefined, KUndefined => true
  | KNull, KNull => true
  | KBool a, KBool b => Bool.eqb a b
  | KNum a, KNum b => Z.eqb a b
  | KStr a, KStr b => String.eqb a b
  | KRef a p, KRef b q => Nat.eqb a b && Bool.eqb p q
  | _, _ => false
  end.

(** A WebSocket object, named by the order in which it was accepted. *)
Definition conn := nat.

Module JsMap.

(** Entries in insertion order. *)
Definition t := list (jskey * conn).

Definition empty : t := [].

Fixpoint get (m : t) (k : jskey) : option conn :=
  match m with
  | [] => None
  | (k', v) :: rest => if key_eqb k' k then Some v else get rest k
  end.

(** [set] on a present key replaces the value where the entry stands;
    a new key goes to the end. *)
Fixpoint set (m : t) (k : jskey) (v : conn) : t :=
  match m with
  | [] => [(k, v)]
  | (k', v') :: rest =>
      if key_eqb k' k then (k', v) :: rest else (k', v') :: set rest k v
  end.

Fixpoint delete (m : t) (k : jskey) : t :=
  match m with
  | [] => []
  | (k', v') :: rest =>
      if key_eqb k' k then rest else (k', v') :: delete rest k
  end.

Definition keys (m : t) : list jskey := map fst m.
Definition values (m : t) : list conn := map snd m.

(** No key occurs twice: what the [Map] guarantees by construction. *)
Definition wf (m : t) : Prop := NoDup (keys m).

End JsMap.

(** ** The server's state *)

Inductive ready_state : Type := CONNECTING | OPEN | CLOSING | CLOSED.

Definition is_open (r : ready_state) : bool :=
  match r with OPEN => true | _ => false end.

Inductive storage_call : Type :=
| updateScreenOnlineStatus_call (deviceKey : jskey) (isOnline : bool)
| createBroadcast_call (screenIds : list string)
| updateBroadcast_call (broadcastId : string)
| createAuditLog_call (broadcastId : string).

Inductive console_entry : Type :=
| log_new_connection
| log_player_registered (deviceKey : jskey)
| log_player_status (deviceKey status : value)
| log_player_disconnected (deviceKey : jskey)
| log_screen_connected (screenId : jskey)
| log_screen_disconnected (screenId : jskey)
| error_handling_message (e : js_error)
| error_creating_broadcast (e : js_error)
| error_broadcasting_to_screen (e : js_error).

Record server : Type := mkServer {
  screenConnections : JsMap.t;
  (* readyState of every socket, owned by the transport *)
  sockets : conn -> ready_state;
  (* frames handed to send, oldest first *)
  outbox : list (conn * string);
  (* calls made on storage, oldest first *)
  storage_calls : list storage_call;
  (* lines written with console.log and console.error, oldest first *)
  console : list console_entry;
  (* close listeners added while running (second routes file only) *)
  closeListeners : list (conn * jskey)
}.

Definition initial : server :=
  mkServer JsMap.empty (fun _ => CONNECTING) [] [] [] [].

(** ** Statements: state passing with exceptions *)

Definition M (A : Type) : Type := server -> completion A * server.

Definition ret {A} (a : A) : M A := fun s => (Normal a, s).

Definition bind {A B} (m : M A) (f : A -> M B) : M B :=
  fun s =>
    match m s with
    | (Normal a, s') => f a s'
    | (Throw e, s') => (Throw e, s')
    end.

Definition throw {A} (e : js_error) : M A := fun s => (Throw e, s).

Definition lift {A} (c : completion A) : M A := fun s => (c, s).

(** [try { body } catch (error) { handler }] *)
Definition try_catch {A} (body : M A) (handler : js_error -> M A) : M A :=
  fun s =>
    match body s with
    | (Normal a, s') => (Normal a, s')
    | (Throw e, s') => handler e s'
    end.

Declare Scope js_scope.
Delimit Scope js_scope with js.
Notation "x <- m ;; k" := (bind m (fun x => k))
  (at level 100, m at next level, right associativity) : js_scope.
Notation "m ;; k" := (bind m (fun _ => k))
  (at level 100, right associativity) : js_scope.
Local Open Scope js_scope.

Definition exec (m : M unit) (s : server) : server := snd (m s).
Definition outcome {A} (m : M A) (s : server) : completion A := fst (m s).

(** [JSON.parse(message.toString())]: the frame comes with what the parser
    makes of it, [None] when it raises. *)
Definition JSON_parse (message : option value) : M value :=
  match message with
  | Some data => ret data
  | None => throw SyntaxError
  end.

Definition Map_get (k : jskey) : M (option conn) :=
  fun s => (Normal (JsMap.get (screenConnections s) k), s).

Definition Map_set (k : jskey) (ws : conn) : M unit :=
  fun s => (Normal tt,
            mkServer (JsMap.set (screenConnections s) k ws) (sockets s) (outbox s)
                     (storage_calls s) (console s) (closeListeners s)).

Definition Map_delete (k : jskey) : M unit :=
  fun s => (Normal tt,
            mkServer (JsMap.delete (screenConnections s) k) (sockets s) (outbox s)
                     (storage_calls s) (console s) (closeListeners s)).

Definition Map_entries : M (list (jskey * conn)) :=
  fun s => (Normal (screenConnections s), s).

Definition readyState (ws : conn) : M ready_state :=
  fun s => (Normal (sockets s ws), s).

(** A call on the storage collaborator; the call is made whether or not its
    promise is awaited. *)
Definition storage (c : storage_call) : M unit :=
  fun s => (Normal tt,
            mkServer (screenConnections s) (sockets s) (outbox s)
                     (storage_calls s ++ [c]) (console s) (closeListeners s)).

(** [await] of a storage promise that settles as [ok] says. *)
Definition await (ok : bool) : M unit :=
  if ok then ret tt else throw StorageError.

(** The conversion inside a template literal, which raises when the value
    does not convert. *)
Definition template (converts : bool) : M unit :=
  if converts then ret tt else throw TypeError.

Definition console_write (e : console_entry) : M unit :=
  fun s => (Normal tt,
            mkServer (screenConnections s) (sockets s) (outbox s)
                     (storage_calls s) (console s ++ [e]) (closeListeners s)).

(** [ws.send(message)]; [throws] tells on which sockets the call raises. *)
Definition send (throws : conn -> bool) (ws : conn) (message : string) : M unit :=
  fun s =>
    if throws ws then (Throw SendError, s)
    else (Normal tt,
          mkServer (screenConnections s) (sockets s) (outbox s ++ [(ws, message)])
                   (storage_calls s) (console s) (closeListeners s)).

Definition add_close_listener (ws : conn) (k : jskey) : M unit :=
  fun s => (Normal tt,
            mkServer (screenConnections s) (sockets s) (outbox s)
                     (storage_calls s) (console s) (closeListeners s ++ [(ws, k)])).

(** What the transport does to a socket before a listener runs. *)
Definition transport (ws : conn) (r : ready_state) (s : server) : server :=
  mkServer (screenConnections s)
           (fun c => if Nat.eqb c ws then r else sockets s c)
           (outbox s) (storage_calls s) (console s) (closeListeners s).

(** ** The player listeners (both routes files) *)

(** [ws.on('message', async (message) => { ... })] *)
Definition on_message (ws : conn) (message : option value) (db_ok : bool) : M unit :=
  try_catch
    (data <- JSON_parse message ;;
     type <- lift (get_prop data "type") ;;
     if strict_eq_str type "PLAYER_REGISTER" then
       payload <- lift (get_prop data "payload") ;;
       deviceKey <- lift (get_prop payload "deviceKey") ;;
       if truthy deviceKey then
         Map_set (to_key deviceKey) ws ;;
         storage (updateScreenOnlineStatus_call (to_key deviceKey) true) ;;
         await db_ok ;;
         template (printable deviceKey) ;;
         console_write (log_player_registered (to_key deviceKey))
       else ret tt
     else if strict_eq_str type "PLAYER_STATUS" then
       payload <- lift (get_prop data "payload") ;;
       deviceKey <- lift (get_prop payload "deviceKey") ;;
       status <- lift (get_prop payload "status") ;;
       template (printable deviceKey) ;;
       console_write (log_player_status deviceKey status)
     else ret tt)
    (fun error => console_write (error_handling_message error)).

(** The loop of the [close] listener over [Array.from(entries())]; it
    leaves at the first entry held by [ws].  The listener has no [try]: when
    the key does not convert for the log line, the exception leaves it, the
    entry deleted and the storage called. *)
Fixpoint close_scan (entries : list (jskey * conn)) (ws : conn) : M unit :=
  match entries with
  | [] => ret tt
  | (deviceKey, connection) :: rest =>
      if Nat.eqb connection ws then
        Map_delete deviceKey ;;
        storage (updateScreenOnlineStatus_call deviceKey false) ;;
        template (key_printable deviceKey) ;;
        console_write (log_player_disconnected deviceKey)
      else close_scan rest ws
  end.

(** [ws.on('close', () => { ... })] *)
Definition on_close (ws : conn) : M unit :=
  entries <- Map_entries ;;
  close_scan entries ws.

(** [wss.on('connection', (ws, req) => { ... })] *)
Definition on_connection (ws : conn) : M unit :=
  console_write log_new_connection.

Inductive event : Type :=
| Connection (ws : conn)
| Message (ws : conn) (message : option value) (db_ok : bool)
| Close (ws : conn).

(** ** First routes file *)
Module Routes.

(** One event of the server: the transport moves the socket, then the
    listener runs to its end. *)
Definition step (s : server) (e : event) : server :=
  match e with
  | Connection ws => exec (on_connection ws) (transport ws OPEN s)
  | Message ws message db_ok => exec (on_message ws message db_ok) s
  | Close ws => exec (on_close ws) (transport ws CLOSED s)
  end.

Definition run (trace : list event) (s : server) : server :=
  fold_left step trace s.

End Routes.

(** ** Second routes file (authentication removed) *)
Module RoutesPublic.

(** The first [message] listener: [REGISTER_SCREEN] keyed by [data.screenId],
    with a [close] listener of its own added on every registration. *)
Definition on_message_register_screen (ws : conn) (message : option value) : M unit :=
  try_catch
    (data <- JSON_parse message ;;
     type <- lift (get_prop data "type") ;;
     if strict_eq_str type "REGISTER_SCREEN" then
       screenId <- lift (get_prop data "screenId") ;;
       if truthy screenId then
         Map_set (to_key screenId) ws ;;
         template (printable screenId) ;;
         console_write (log_screen_connected (to_key screenId)) ;;
         add_close_listener ws (to_key screenId)
       else ret tt
     else ret tt)
    (fun error => console_write (error_handling_message error)).

(** The listeners [() => { screenConnections.delete(data.screenId); ... }]
    that [ws] has collected, in the order they were added. *)
Fixpoint run_close_listeners (listeners : list (conn * jskey)) (ws : conn) : M unit :=
  match listeners with
  | [] => ret tt
  | (owner, screenId) :: rest =>
      (if Nat.eqb owner ws then
         Map_delete screenId ;;
         template (key_printable screenId) ;;
         console_write (log_screen_disconnected screenId)
       else ret tt) ;;
      run_close_listeners rest ws
  end.

(** Listeners run in the order of their [ws.on] calls: both [message]
    listeners on a frame; on close the scanning listener, then the ones
    added by [REGISTER_SCREEN].  A [close] listener that raises ends the
    round: the ones after it are not called. *)
Definition step (s : server) (e : event) : server :=
  match e with
  | Connection ws => exec (on_connection ws) (transport ws OPEN s)
  | Message ws message db_ok =>
      exec (on_message ws message db_ok)
           (exec (on_message_register_screen ws message) s)
  | Close ws =>
      exec (on_close ws ;;
            fun s' => run_close_listeners (closeListeners s') ws s')
           (transport ws CLOSED s)
  end.

Definition run (trace : list event) (s : server) : server :=
  fold_left step trace s.

End RoutesPublic.

(** ** Broadcast dispatch *)

Inductive response : Type :=
| status_200
| status_400
| status_404
| status_500.

(** A playlist as [getPlaylistWithItems] returns it: an object. *)
Record playlist_row : Type := mkPlaylistRow {
  playlist_addr : addr;
  playlist_fields : list (string * value)
}.

Definition playlist_value (p : playlist_row) : value :=
  VObj (playlist_addr p) (playlist_fields p).

Coercion playlist_value : playlist_row >-> value.

(** What the route finds on its way to the loop: whether the user has an
    organisation, the [screenIds] the schema lets through ([None] when
    [insertBroadcastSchema.parse] raises), the playlist the storage returns
    ([None] for the [undefined] of a playlist that is not there), the id of
    the stored broadcast, and the sockets whose [send] raises. *)
Record broadcast_request : Type := mkRequest {
  has_organization : bool;
  validated_screenIds : option (list string);
  playlist_found : option playlist_row;
  broadcast_id : string;
  send_throws : conn -> bool
}.

(** [validatedData.screenIds.forEach(screenId => { ... })] *)
Fixpoint forEach_screenId (throws : conn -> bool) (message : string)
    (screenIds : list string) : M unit :=
  match screenIds with
  | [] => ret tt
  | screenId :: rest =>
      screen <- Map_get (KStr screenId) ;;
      match screen with
      | Some screen =>
          state <- readyState screen ;;
          if is_open state then send throws screen message else ret tt
      | None => ret tt
      end ;;
      forEach_screenId throws message rest
  end.

Section Serialization.

(** [JSON.stringify], a built-in of the platform. *)
Variable JSON_stringify : value -> string.

(** The literal [{ type: 'LOAD_PLAYLIST', payload: { playlist, broadcastId } }];
    the addresses of the two fresh objects play no part. *)
Definition load_playlist (playlist : value) (broadcastId : string) : value :=
  VObj 0 [("type", VStr "LOAD_PLAYLIST");
          ("payload", VObj 0 [("playlist", playlist);
                              ("broadcastId", VStr broadcastId)])].

(** [app.post('/api/broadcasts', ...)] when the storage promises of the
    route resolve; [post_broadcasts_awaiting] below lets them reject. *)
Definition post_broadcasts (req : broadcast_request) : M response :=
  try_catch
    (if negb (has_organization req) then ret status_400
     else
       match validated_screenIds req with
       | None => throw ValidationError
       | Some screenIds =>
           storage (createBroadcast_call screenIds) ;;
           match playlist_found req with
           | None => ret status_404
           | Some playlist =>
               let message :=
                 JSON_stringify (load_playlist playlist (broadcast_id req)) in
               forEach_screenId (send_throws req) message screenIds ;;
               storage (updateBroadcast_call (broadcast_id req)) ;;
               storage (createAuditLog_call (broadcast_id req)) ;;
               ret status_200
           end
       end)
    (fun error =>
       console_write (error_creating_broadcast error) ;;
       ret status_500).

(** The promises the route awaits, in the order it awaits them. *)
Inductive awaited : Type :=
| getUser_promise
| createBroadcast_promise
| getPlaylistWithItems_promise
| updateBroadcast_promise
| createAuditLog_promise.

(** The route with storage promises that may reject: [resolves] tells which
    ones are fulfilled.  A rejection is thrown at the [await] and lands in the
    [catch] of the route like any other exception. *)
Definition post_broadcasts_awaiting (resolves : awaited -> bool)
    (req : broadcast_request) : M response :=
  try_catch
    (await (resolves getUser_promise) ;;
     if negb (has_organization req) then ret status_400
     else
       match validated_screenIds req with
       | None => throw ValidationError
       | Some screenIds =>
           storage (createBroadcast_call screenIds) ;;
           await (resolves createBroadcast_promise) ;;
           await (resolves getPlaylistWithItems_promise) ;;
           match playlist_found req with
           | None => ret status_404
           | Some playlist =>
               let message :=
                 JSON_stringify (load_playlist playlist (broadcast_id req)) in
               forEach_screenId (send_throws req) message screenIds ;;
               storage (updateBroadcast_call (broadcast_id req)) ;;
               await (resolves updateBroadcast_promise) ;;
               storage (createAuditLog_call (broadcast_id req)) ;;
               await (resolves createAuditLog_promise) ;;
               ret status_200
           end
       end)
    (fun error =>
       console_write (error_creating_broadcast error) ;;
       ret status_500).

(** The loop of [broadcastToScreens] in [routes_new.ts]: the [try] sits
    inside the loop. *)
Fixpoint broadcast_loop (throws : conn -> bool) (message : string)
    (connections : list conn) : M unit :=
  match connections with
  | [] => ret tt
  | ws :: rest =>
      try_catch
        (state <- readyState ws ;;
         if is_open state then send throws ws message else ret tt)
        (fun error => console_write (error_broadcasting_to_screen error)) ;;
      broadcast_loop throws message rest
  end.

Definition broadcastToScreens (throws : conn -> bool) (data : value) : M unit :=
  let message := JSON_stringify data in
  fun s => broadcast_loop throws message (JsMap.values (screenConnections s)) s.

End Serialization.

(** ** Observations used in the statements *)

(** The screens table of [shared/schema.ts], as far as the registry goes. *)
Record Screen : Type := mkScreen {
  screen_id : string;
  screen_deviceKey : string
}.

(** The pair a frame makes the player listener store: a [PLAYER_REGISTER]
    frame whose payload carries a truthy [deviceKey]. *)
Definition registration_of (e : event) : option (jskey * conn) :=
  match e with
  | Message ws (Some data) _ =>
      match get_prop data "type" with
      | Normal type =>
          if strict_eq_str type "PLAYER_REGISTER" then
            match get_prop data "payload" with
            | Normal payload =>
                match get_prop payload "deviceKey" with
                | Normal deviceKey =>
                    if truthy deviceKey then Some (to_key deviceKey, ws) else None
                | Throw _ => None
                end
            | Throw _ => None
            end
          else None
      | Throw _ => None
      end
  | _ => None
  end.

(** The socket of the latest registration under [k] in a trace. *)
Fixpoint last_registered (trace : list event) (k : jskey) : option conn :=
  match trace with
  | [] => None
  | e :: rest =>
      match last_registered rest k with
      | Some ws => Some ws
      | None =>
          match registration_of e with
          | Some (k', ws) => if key_eqb k' k then Some ws else None
          | None => None
          end
      end
  end.

Definition is_close (e : event) : bool :=
  match e with Close _ => true | _ => false end.

(** The reading of the registry invariant without regard to closes: every
    lookup answers with the socket of the latest registration. *)
Definition lookup_is_latest (trace : list event) : Prop :=
  forall k, JsMap.get (screenConnections (Routes.run trace initial)) k =
            last_registered trace k.

(** No close of [ws] among the events. *)
Definition never_closes (ws : conn) (trace : list event) : bool :=
  forallb (fun e => match e with Close c => negb (Nat.eqb c ws) | _ => true end) trace.

(** The key of the first entry, in insertion order, held by [ws]. *)
Fixpoint first_held (m : JsMap.t) (ws : conn) : option jskey :=
  match m with
  | [] => None
  | (k, c) :: rest => if Nat.eqb c ws then Some k else first_held rest ws
  end.

(** The state a close leaves when [k] is the first key held by the socket. *)
Definition unregistered (k : jskey) (s : server) : server :=
  mkServer (JsMap.delete (screenConnections s) k) (sockets s) (outbox s)
           (storage_calls s ++ [updateScreenOnlineStatus_call k false])
           (console s ++ if key_printable k then [log_player_disconnected k] else [])
           (closeListeners s).

(** A frame neither branch of the player listener takes: the parser
    raises, the [type] cannot be read, or it is neither of the two tags. *)
Definition unhandled (message : option value) : bool :=
  match message with
  | None => true
  | Some data =>
      match get_prop data "type" with
      | Throw _ => true
      | Normal type =>
          negb (strict_eq_str type "PLAYER_REGISTER") &&
          negb (strict_eq_str type "PLAYER_STATUS")
      end
  end.

(** The line the player listener writes for a [PLAYER_STATUS] frame: the
    status line, or what its [catch] logs when the destructuring of the
    payload or the conversion of [deviceKey] in the template literal raises. *)
Definition status_line (data : value) : console_entry :=
  match get_prop data "payload" with
  | Normal payload =>
      match get_prop payload "deviceKey", get_prop payload "status" with
      | Normal deviceKey, Normal status =>
          if printable deviceKey then log_player_status deviceKey status
          else error_handling_message TypeError
      | Throw e, _ | _, Throw e => error_handling_message e
      end
  | Throw e => error_handling_message e
  end.

(** The calls on [storage] made between two states. *)
Definition calls_since (s s' : server) : list storage_call :=
  skipn (List.length (storage_calls s)) (storage_calls s').

(** The socket a target identity resolves to when it is mapped and open. *)
Definition deliverable (s : server) (screenId : string) : option conn :=
  match JsMap.get (screenConnections s) (KStr screenId) with
  | Some screen => if is_open (sockets s screen) then Some screen else None
  | None => None
  end.

(** One frame for every element of the list that is deliverable, in the
    order of the list. *)
Definition frames_for (s : server) (message : string) (screenIds : list string)
  : list (conn * string) :=
  flat_map (fun screenId =>
              match deliverable s screenId with
              | Some screen => [(screen, message)]
              | None => []
              end) screenIds.

(** The frames of a list that went to [ws]. *)
Definition frames_to (ws : conn) (frames : list (conn * string)) : list (conn * string) :=
  filter (fun f => Nat.eqb (fst f) ws) frames.

(** The frames a run of the route added to the outbox. *)
Definition sent_by {A} (m : M A) (s : server) : list (conn * string) :=
  skipn (List.length (outbox s)) (outbox (snd (m s))).

(** The bodies of the two player frames. *)
Definition player_register (deviceKey : value) : value :=
  VObj 0 [("type", VStr "PLAYER_REGISTER");
          ("payload", VObj 1 [("deviceKey", deviceKey)])].

Definition player_status (deviceKey status : value) : value :=
  VObj 0 [("type", VStr "PLAYER_STATUS");
          ("payload", VObj 1 [("deviceKey", deviceKey); ("status", status)])].

Definition register_screen (screenId : value) : value :=
  VObj 0 [("type", VStr "REGISTER_SCREEN"); ("screenId", screenId)].

(** A state with more frames in its outbox. *)
Definition with_frames (s : server) (frames : list (conn * string)) : server :=
  mkServer (screenConnections s) (sockets s) (outbox s ++ frames)
           (storage_calls s) (console s) (closeListeners s).

(** The reading of the dispatch contract by target rather than by list
    element: whatever the list, a target that is mapped and open finds
    exactly one frame, the shared serialization. *)
Definition each_listed_target_sent_once (JSON_stringify : value -> string)
    (req : broadcast_request) (s : server) : Prop :=
  forall screenIds playlist screenId ws,
    validated_screenIds req = Some screenIds ->
    playlist_found req = Some playlist ->
    In screenId screenIds ->
    deliverable s screenId = Some ws ->
    frames_to ws (sent_by (post_broadcasts JSON_stringify req) s) =
    [(ws, JSON_stringify (load_playlist playlist (broadcast_id req)))].

(** ** The WebSocket side of [routes_new.ts] *)
Module RoutesNew.

Section Listeners.

Variable JSON_stringify : value -> string.

(** The sockets on which [send] raises. *)
Variable throws : conn -> bool.

(** The literal [{ type: "registered", deviceKey }] of the acknowledgment. *)
Definition registered (deviceKey : value) : value :=
  VObj 0 [("type", VStr "registered"); ("deviceKey", deviceKey)].

(** [ws.on("message", async (message) => { ... })]: the key is read from the
    top of the frame and stored without a test; the lines written are
    [Screen registered with key: ...] and the error of the [catch]. *)
Definition on_message (ws : conn) (message : option value) : M unit :=
  try_catch
    (data <- JSON_parse message ;;
     type <- lift (get_prop data "type") ;;
     if strict_eq_str type "register" then
       deviceKey <- lift (get_prop data "deviceKey") ;;
       Map_set (to_key deviceKey) ws ;;
       template (printable deviceKey) ;;
       console_write (log_screen_connected (to_key deviceKey)) ;;
       send throws ws (JSON_stringify (registered deviceKey))
     else ret tt)
    (fun error => console_write (error_handling_message error)).

(** The loop of the [close] listener over [screenConnections.entries()];
    it writes [Screen with key ... disconnected] and calls no storage. *)
Fixpoint close_scan (entries : list (jskey * conn)) (ws : conn) : M unit :=
  match entries with
  | [] => ret tt
  | (key, connection) :: rest =>
      if Nat.eqb connection ws then
        Map_delete key ;;
        template (key_printable key) ;;
        console_write (log_screen_disconnected key)
      else close_scan rest ws
  end.

Definition on_close (ws : conn) : M unit :=
  entries <- Map_entries ;;
  close_scan entries ws.

Definition step (s : server) (e : event) : server :=
  match e with
  | Connection ws => exec (on_connection ws) (transport ws OPEN s)
  | Message ws message _ => exec (on_message ws message) s
  | Close ws => exec (on_close ws) (transport ws CLOSED s)
  end.

Definition run (trace : list event) (s : server) : server :=
  fold_left step trace s.

End Listeners.

End RoutesNew.

(** ** More observations *)

(** The sockets the loop of [broadcastToScreens] hands a frame to, and the
    ones on which it logs an error. *)
Definition reached (throws : conn -> bool) (s : server) (ws : conn) : bool :=
  is_open (sockets s ws) && negb (throws ws).

Definition failed (throws : conn -> bool) (s : server) (ws : conn) : bool :=
  is_open (sockets s ws) && throws ws.

(** The keys a socket has announced with [REGISTER_SCREEN]. *)
Definition announced (s : server) (ws : conn) (k : jskey) : Prop :=
  In (ws, k) (closeListeners s).

(** The keys reported to the storage as online, and as offline. *)
Definition marked (isOnline : bool) (s : server) (k : jskey) : Prop :=
  In (updateScreenOnlineStatus_call k isOnline) (storage_calls s).

(** The number of registry entries a socket holds. *)
Definition held (s : server) (ws : conn) : nat :=
  List.length (filter (fun c => Nat.eqb c ws) (JsMap.values (screenConnections s))).

(** Every key of the registry has been reported online, and every report
    of a key as offline comes after a report of it as online. *)
Definition status_calls_consistent (s : server) : Prop :=
  (forall k, In k (JsMap.keys (screenConnections s)) -> marked true s k) /\
  (forall pre k post,
     storage_calls s = pre ++ updateScreenOnlineStatus_call k false :: post ->
     In (updateScreenOnlineStatus_call k true) pre).

(** ** The broadcast dialog of [playlists.tsx] *)
Module PlaylistsPage.

(** [selectedScreens.includes(deviceKey)] *)
Definition includes (selectedScreens : list string) (deviceKey : string) : bool :=
  existsb (String.eqb deviceKey) selectedScreens.

(** The [onChange] of a screen's checkbox, [checked] being [e.target.checked]. *)
Definition onChange (selectedScreens : list string) (deviceKey : string)
    (checked : bool) : list string :=
  if checked then selectedScreens ++ [deviceKey]
  else filter (fun id => negb (String.eqb id deviceKey)) selectedScreens.

(** A click on the box of a screen: the box is controlled, it shows
    [includes] and the click reports the opposite. *)
Definition click (selectedScreens : list string) (deviceKey : string) : list string :=
  onChange selectedScreens deviceKey (negb (includes selectedScreens deviceKey)).

Definition clicks (deviceKeys : list string) (selectedScreens : list string) : list string :=
  fold_left click deviceKeys selectedScreens.

(** [handleBroadcast]: the body handed to [POST /api/broadcasts], if any. *)
Definition handleBroadcast (selectedPlaylist : option string)
    (selectedScreens : list string) : option (string * list string) :=
  match selectedPlaylist with
  | Some playlistId =>
      if Nat.ltb 0 (List.length selectedScreens)
      then Some (playlistId, selectedScreens) else None
  | None => None
  end.

End PlaylistsPage.

(** ** The player page, [player.tsx] *)
Module Player.

(** The interfaces of the page, as far as the state updates read them. *)
Record PlaylistItem : Type := mkItem { duration : Z }.

Record Playlist : Type := mkPlaylist { items : list PlaylistItem }.

(** [currentIndex] is a number: a position, or [NaN] as [None]. *)
Record PlayerState : Type := mkState {
  currentPlaylist : option Playlist;
  currentIndex : option nat;
  isPlaying : bool;
  timeRemaining : Z
}.

(** The initial [useState] value. *)
Definition initialState : PlayerState := mkState None (Some 0) false 0.

(** [item?.duration || 10] *)
Definition duration_or_10 (item : option PlaylistItem) : Z :=
  match item with
  | Some item => if Z.eqb (duration item) 0 then 10 else duration item
  | None => 10
  end.

(** [playlist?.items[index]] *)
Definition item_at (playlist : option Playlist) (index : option nat) : option PlaylistItem :=
  match playlist, index with
  | Some playlist, Some i => nth_error (items playlist) i
  | _, _ => None
  end.

(** [(index + 1) % n] on numbers: [NaN] stays [NaN], and a remainder by
    zero is [NaN]. *)
Definition next_mod (index : option nat) (n : nat) : option nat :=
  match index with
  | Some i => if Nat.eqb n 0 then None else Some (Nat.modulo (S i) n)
  | None => None
  end.

(** [prev.currentPlaylist?.items.length || 1] *)
Definition length_or_1 (playlist : option Playlist) : nat :=
  match playlist with
  | Some playlist =>
      if Nat.eqb (List.length (items playlist)) 0 then 1 else List.length (items playlist)
  | None => 1
  end.

(** The state update of the one-second interval. *)
Definition tick (prev : PlayerState) : PlayerState :=
  if Z.leb (timeRemaining prev) 1 then
    let nextIndex := next_mod (currentIndex prev) (length_or_1 (currentPlaylist prev)) in
    let nextItem := item_at (currentPlaylist prev) nextIndex in
    mkState (currentPlaylist prev) nextIndex (isPlaying prev) (duration_or_10 nextItem)
  else
    mkState (currentPlaylist prev) (currentIndex prev) (isPlaying prev)
            (timeRemaining prev - 1).

(** The [Next] button. *)
Definition nextItem (playerState : PlayerState) : PlayerState :=
  match currentPlaylist playerState with
  | None => playerState
  | Some playlist =>
      let nextIndex := next_mod (currentIndex playerState) (List.length (items playlist)) in
      let nextItem := item_at (Some playlist) nextIndex in
      mkState (currentPlaylist playerState) nextIndex (isPlaying playerState)
              (duration_or_10 nextItem)
  end.

(** The state update of a [LOAD_PLAYLIST] message. *)
Definition loadPlaylist (playlist : Playlist) (prev : PlayerState) : PlayerState :=
  mkState (Some playlist) (Some 0) true (duration_or_10 (item_at (Some playlist) (Some 0))).

Definition togglePlayPause (prev : PlayerState) : PlayerState :=
  mkState (currentPlaylist prev) (currentIndex prev) (negb (isPlaying prev))
          (timeRemaining prev).

(** What can happen to the state once a playlist is loaded. *)
Inductive action : Type := Tick | Next | Toggle.

Definition apply (st : PlayerState) (a : action) : PlayerState :=
  match a with
  | Tick => tick st
  | Next => nextItem st
  | Toggle => togglePlayPause st
  end.

(** A state standing on an item of a playlist that has some. *)
Definition on_item (p : Playlist) (i : nat) (st : PlayerState) : Prop :=
  currentPlaylist st = Some p /\ currentIndex st = Some i /\ i < List.length (items p).

(** The number of ticks an item stays on screen once it is entered. *)
Definition shown (playlist : Playlist) (i : nat) : nat :=
  Z.to_nat (Z.max 1 (duration_or_10 (nth_error (items playlist) i))).

(** The ticks it takes to go through [m] items in turn from the first. *)
Fixpoint ticks_through (playlist : Playlist) (m : nat) : nat :=
  match m with
  | 0 => 0
  | S m' =>
      ticks_through playlist m' +
      shown playlist (Nat.modulo m' (List.length (items playlist)))
  end.

End Player.

(** ** The [useWebSocket] hook *)
Module WebSocketHook.

Inductive line : Type :=
| log_connected
| log_disconnected (code : Z)
| log_reconnecting_in (timeout : Z)
| error_parsing_message
| error_websocket
| warn_cannot_send.

(** The state and refs of the hook, then what the browser holds for it:
    the sockets made so far (the next one is number [created]) with their
    [readyState], the pending timeouts with their delay in milliseconds, the
    frames sent and the [close] calls made. *)
Record hook : Type := mkHook {
  socket : option conn;
  isConnected : bool;
  lastMessage : option value;
  reconnectTimeoutRef : option nat;
  reconnectAttempts : nat;
  created : nat;
  ready : conn -> ready_state;
  timers : list (nat * Z);
  next_timer : nat;
  sent : list (conn * string);
  close_calls : list (conn * Z);
  lines : list line
}.

Definition maxReconnectAttempts : nat := 5.

Definition set_ready (ready : conn -> ready_state) (ws : conn) (r : ready_state)
  : conn -> ready_state :=
  fun c => if Nat.eqb c ws then r else ready c.

(** [connect]: a new socket with the four handlers; the URL is built from
    the location of the page, and the constructor is taken not to raise. *)
Definition connect (h : hook) : hook :=
  mkHook (socket h) (isConnected h) (lastMessage h) (reconnectTimeoutRef h)
         (reconnectAttempts h) (S (created h))
         (set_ready (ready h) (created h) CONNECTING)
         (timers h) (next_timer h) (sent h) (close_calls h) (lines h).

(** [ws.onopen] *)
Definition onopen (ws : conn) (h : hook) : hook :=
  mkHook (Some ws) true (lastMessage h) (reconnectTimeoutRef h) 0 (created h) (ready h)
         (timers h) (next_timer h) (sent h) (close_calls h) (lines h ++ [log_connected]).

(** [ws.onmessage], the event data given by what [JSON.parse] makes of it. *)
Definition onmessage (ws : conn) (data : option value) (h : hook) : hook :=
  match data with
  | Some data =>
      mkHook (socket h) (isConnected h) (Some data) (reconnectTimeoutRef h)
             (reconnectAttempts h) (created h) (ready h) (timers h) (next_timer h)
             (sent h) (close_calls h) (lines h)
  | None =>
      mkHook (socket h) (isConnected h) (lastMessage h) (reconnectTimeoutRef h)
             (reconnectAttempts h) (created h) (ready h) (timers h) (next_timer h)
             (sent h) (close_calls h) (lines h ++ [error_parsing_message])
  end.

(** [Math.pow(2, reconnectAttempts.current) * 1000] *)
Definition backoff (attempts : nat) : Z := (2 ^ Z.of_nat attempts * 1000)%Z.

(** [ws.onclose] *)
Definition onclose (ws : conn) (code : Z) (h : hook) : hook :=
  if negb (Z.eqb code 1000) && Nat.ltb (reconnectAttempts h) maxReconnectAttempts then
    let timeout := backoff (reconnectAttempts h) in
    mkHook None false (lastMessage h) (Some (next_timer h)) (reconnectAttempts h)
           (created h) (ready h)
           (timers h ++ [(next_timer h, timeout)]) (S (next_timer h))
           (sent h) (close_calls h)
           (lines h ++ [log_disconnected code; log_reconnecting_in timeout])
  else
    mkHook None false (lastMessage h) (reconnectTimeoutRef h) (reconnectAttempts h)
           (created h) (ready h) (timers h) (next_timer h) (sent h) (close_calls h)
           (lines h ++ [log_disconnected code]).

(** [ws.onerror] *)
Definition onerror (ws : conn) (h : hook) : hook :=
  mkHook (socket h) (isConnected h) (lastMessage h) (reconnectTimeoutRef h)
         (reconnectAttempts h) (created h) (ready h) (timers h) (next_timer h)
         (sent h) (close_calls h) (lines h ++ [error_websocket]).

(** The callback given to [setTimeout]. *)
Definition reconnect_callback (h : hook) : hook :=
  connect (mkHook (socket h) (isConnected h) (lastMessage h) (reconnectTimeoutRef h)
                  (S (reconnectAttempts h)) (created h) (ready h) (timers h)
                  (next_timer h) (sent h) (close_calls h) (lines h)).

Definition pending (id : nat) (h : hook) : bool :=
  existsb (fun t => Nat.eqb (fst t) id) (timers h).

(** [clearTimeout(id)], and equally a timeout leaving the table as it fires. *)
Definition clearTimeout (id : nat) (h : hook) : hook :=
  mkHook (socket h) (isConnected h) (lastMessage h) (reconnectTimeoutRef h)
         (reconnectAttempts h) (created h) (ready h)
         (filter (fun t => negb (Nat.eqb (fst t) id)) (timers h))
         (next_timer h) (sent h) (close_calls h) (lines h).

(** [ws.close(1000, ...)] on a socket. *)
Definition close (ws : conn) (h : hook) : hook :=
  mkHook (socket h) (isConnected h) (lastMessage h) (reconnectTimeoutRef h)
         (reconnectAttempts h) (created h) (set_ready (ready h) ws CLOSING)
         (timers h) (next_timer h) (sent h) (close_calls h ++ [(ws, 1000%Z)]) (lines h).

Definition clear_ref (h : hook) : hook :=
  match reconnectTimeoutRef h with
  | Some id => clearTimeout id h
  | None => h
  end.

(** [disconnect] *)
Definition disconnect (h : hook) : hook :=
  let h := clear_ref h in
  match socket h with
  | Some ws => if is_open (ready h ws) then close ws h else h
  | None => h
  end.

(** The cleanup of the effect: [ws] is the socket made at mount, number 0. *)
Definition cleanup (h : hook) : hook :=
  let h := clear_ref h in
  if is_open (ready h 0) then close 0 h else h.

Section Send.

Variable JSON_stringify : value -> string.

(** [sendMessage] *)
Definition sendMessage (message : value) (h : hook) : hook :=
  match socket h with
  | Some ws =>
      if is_open (ready h ws) then
        mkHook (socket h) (isConnected h) (lastMessage h) (reconnectTimeoutRef h)
               (reconnectAttempts h) (created h) (ready h) (timers h) (next_timer h)
               (sent h ++ [(ws, JSON_stringify message)]) (close_calls h) (lines h)
      else
        mkHook (socket h) (isConnected h) (lastMessage h) (reconnectTimeoutRef h)
               (reconnectAttempts h) (created h) (ready h) (timers h) (next_timer h)
               (sent h) (close_calls h) (lines h ++ [warn_cannot_send])
  | None =>
      mkHook (socket h) (isConnected h) (lastMessage h) (reconnectTimeoutRef h)
             (reconnectAttempts h) (created h) (ready h) (timers h) (next_timer h)
             (sent h) (close_calls h) (lines h ++ [warn_cannot_send])
  end.

(** What the browser and the component using the hook can do. *)
Inductive hook_event : Type :=
| Open (ws : conn)
| Incoming (ws : conn) (data : option value)
| Closed (ws : conn) (code : Z)
| Failed (ws : conn)
| Timeout (id : nat)
| Send (message : value)
| Disconnect
| Reconnect
| Unmount.

Definition with_ready (ws : conn) (r : ready_state) (h : hook) : hook :=
  mkHook (socket h) (isConnected h) (lastMessage h) (reconnectTimeoutRef h)
         (reconnectAttempts h) (created h) (set_ready (ready h) ws r)
         (timers h) (next_timer h) (sent h) (close_calls h) (lines h).

Definition step (h : hook) (e : hook_event) : hook :=
  match e with
  | Open ws => onopen ws (with_ready ws OPEN h)
  | Incoming ws data => onmessage ws data h
  | Closed ws code => onclose ws code (with_ready ws CLOSED h)
  | Failed ws => onerror ws h
  | Timeout id => if pending id h then reconnect_callback (clearTimeout id h) else h
  | Send message => sendMessage message h
  | Disconnect => disconnect h
  | Reconnect => connect h
  | Unmount => cleanup h
  end.

Definition run (trace : list hook_event) (h : hook) : hook :=
  fold_left step trace h.

(** The hook after its first render: the effect has called [connect].
    Timeout ids count from 1, as the browser gives them, so that the test of
    the ref in [disconnect] and in the cleanup is the test for a timeout
    having been set. *)
Definition mounted : hook :=
  connect (mkHook None false None None 0 0 (fun _ => CLOSED) [] 1 [] [] []).

(** [n] reconnections in a row that fail: socket [k] closes with [code]
    and the timeout set for it, the one numbered [k + 1], fires. *)
Fixpoint failures (code : Z) (n : nat) : list hook_event :=
  match n with
  | 0 => []
  | S k => failures code k ++ [Closed k code; Timeout (S k)]
  end.

End Send.

(** Every pending timeout was set by a close that found fewer than five
    attempts made. *)
Definition timers_bounded (h : hook) : Prop :=
  forall id delay, In (id, delay) (timers h) ->
    exists k, k < maxReconnectAttempts /\ delay = backoff k.

End WebSocketHook.

(** * Properties *)

(** ** Keys and the map *)

Lemma key_eqb_eq (k1 k2 : jskey) : key_eqb k1 k2 = true <-> k1 = k2.
Proof.
  destruct k1, k2; simpl; split; intro H; try discriminate; try reflexivity.
  - apply Bool.eqb_prop in H. now subst.
  - injection H as ->. apply Bool.eqb_reflx.
  - apply Z.eqb_eq in H. now subst.
  - injection H as ->. apply Z.eqb_refl.
  - apply String.eqb_eq in H. now subst.
  - injection H as ->. apply String.eqb_refl.
  - apply andb_prop in H. destruct H as [Ha Hp].
    apply Nat.eqb_eq in Ha. apply Bool.eqb_prop in Hp. now subst.
  - injection H as -> ->. now rewrite Nat.eqb_refl, Bool.eqb_reflx.
Qed.

Lemma key_eqb_refl (k : jskey) : key_eqb k k = true.
Proof. now apply key_eqb_eq. Qed.

Lemma key_eqb_neq (k1 k2 : jskey) : key_eqb k1 k2 = false <-> k1 <> k2.
Proof.
  split.
  - intros H E. apply key_eqb_eq in E. congruence.
  - intros H. destruct (key_eqb k1 k2) eqn:E; [|reflexivity].
    apply key_eqb_eq in E. contradiction.
Qed.

Ltac key_cases k1 k2 :=
  let E := fresh "E" in
  destruct (key_eqb k1 k2) eqn:E;
  [apply key_eqb_eq in E; try subst | pose proof (proj1 (key_eqb_neq _ _) E)].

Module JsMapFacts.
Import JsMap.

Lemma get_set_eq (m : t) k v : get (set m k v) k = Some v.
Proof.
  induction m as [|[k' v'] m IH]; simpl.
  - now rewrite key_eqb_refl.
  - destruct (key_eqb k' k) eqn:E; simpl; rewrite E; auto.
Qed.

Lemma get_set_ne (m : t) k k' v : k <> k' -> get (set m k v) k' = get m k'.
Proof.
  intros Hne. induction m as [|[k0 v0] m IH]; simpl.
  - apply key_eqb_neq in Hne. now rewrite Hne.
  - destruct (key_eqb k0 k) eqn:E; simpl.
    + apply key_eqb_eq in E. subst k0.
      apply key_eqb_neq in Hne. now rewrite Hne.
    + now rewrite IH.
Qed.

Lemma get_In (m : t) k v : get m k = Some v -> In (k, v) m.
Proof.
  induction m as [|[k0 v0] m IH]; simpl; [discriminate|].
  destruct (key_eqb k0 k) eqn:E.
  - apply key_eqb_eq in E. intros [= ->]. subst. now left.
  - intros H. right. auto.
Qed.

Lemma get_None_keys (m : t) k : get m k = None <-> ~ In k (keys m).
Proof.
  induction m as [|[k0 v0] m IH]; simpl; [tauto|].
  destruct (key_eqb k0 k) eqn:E.
  - apply key_eqb_eq in E. subst. split; [discriminate|]. intros H. exfalso. auto.
  - apply key_eqb_neq in E. rewrite IH. tauto.
Qed.

Lemma In_get (m : t) k v : wf m -> In (k, v) m -> get m k = Some v.
Proof.
  unfold wf. induction m as [|[k0 v0] m IH]; simpl; [tauto|].
  intros Hnd [H|H].
  - injection H as -> ->. now rewrite key_eqb_refl.
  - inversion Hnd as [|? ? Hnotin Hnd']; subst.
    destruct (key_eqb k0 k) eqn:E; [|auto].
    apply key_eqb_eq in E. subst k0. exfalso. apply Hnotin.
    change k with (fst (k, v)). now apply in_map.
Qed.

Lemma keys_set (m : t) k v :
  keys (set m k v) =
  match get m k with Some _ => keys m | None => keys m ++ [k] end.
Proof.
  induction m as [|[k0 v0] m IH]; simpl; [reflexivity|].
  destruct (key_eqb k0 k) eqn:E; simpl; [reflexivity|].
  rewrite IH. now destruct (get m k).
Qed.

Lemma set_wf (m : t) k v : wf m -> wf (set m k v).
Proof.
  unfold wf. intros H. rewrite keys_set.
  destruct (get m k) eqn:G; [assumption|].
  apply get_None_keys in G.
  apply NoDup_rev in H. rewrite <- (rev_involutive (keys m ++ [k])).
  apply NoDup_rev. rewrite rev_app_distr. simpl. constructor; [|assumption].
  now rewrite <- in_rev.
Qed.

Lemma keys_delete_incl (m : t) k k' : In k' (keys (delete m k)) -> In k' (keys m).
Proof.
  induction m as [|[k0 v0] m IH]; simpl; [tauto|].
  destruct (key_eqb k0 k); simpl; intuition.
Qed.

Lemma delete_wf (m : t) k : wf m -> wf (delete m k).
Proof.
  unfold wf. induction m as [|[k0 v0] m IH]; simpl; [auto|].
  intros H. inversion H as [|? ? Hnotin Hnd]; subst.
  destruct (key_eqb k0 k); [assumption|]. simpl. constructor; [|auto].
  intros Hin. apply Hnotin. eapply keys_delete_incl; eauto.
Qed.

Lemma get_delete_eq (m : t) k : wf m -> get (delete m k) k = None.
Proof.
  unfold wf. induction m as [|[k0 v0] m IH]; simpl; [auto|].
  intros H. inversion H as [|? ? Hnotin Hnd]; subst.
  destruct (key_eqb k0 k) eqn:E; simpl.
  - apply key_eqb_eq in E. subst. now apply get_None_keys.
  - rewrite E. auto.
Qed.

Lemma get_delete_ne (m : t) k k' : k <> k' -> get (delete m k) k' = get m k'.
Proof.
  intros Hne. induction m as [|[k0 v0] m IH]; simpl; [reflexivity|].
  destruct (key_eqb k0 k) eqn:E; simpl.
  - apply key_eqb_eq in E. subst k0. apply key_eqb_neq in Hne. now rewrite Hne.
  - now rewrite IH.
Qed.

Lemma set_set (m : t) k v w : set (set m k v) k w = set m k w.
Proof.
  induction m as [|[k0 v0] m IH]; simpl.
  - now rewrite key_eqb_refl.
  - destruct (key_eqb k0 k) eqn:E; simpl; rewrite E; [reflexivity|]. now rewrite IH.
Qed.

(** Deleting the key of an entry takes out that very entry. *)
Lemma delete_split (l1 l2 : t) k v :
  wf (l1 ++ (k, v) :: l2) -> delete (l1 ++ (k, v) :: l2) k = l1 ++ l2.
Proof.
  unfold wf, keys. induction l1 as [|[k0 v0] l1 IH]; simpl.
  - now rewrite key_eqb_refl.
  - intros H. inversion H as [|? ? Hnotin Hnd]; subst.
    destruct (key_eqb k0 k) eqn:E.
    + apply key_eqb_eq in E. subst k0. exfalso. apply Hnotin.
      rewrite map_app. apply in_or_app. right. now left.
    + now rewrite IH.
Qed.

End JsMapFacts.

(** ** The player listeners *)

Ltac unfold_js :=
  cbv beta iota delta
    [exec outcome try_catch bind ret throw lift await JSON_parse
     Map_set Map_get Map_delete Map_entries readyState storage
     console_write add_close_listener send template] in *.

(* Case analysis on the innermost scrutinee, until none is left. *)
Ltac split_cases :=
  repeat (cbv beta iota in *; simpl in *;
          match goal with
          | |- context [match ?x with _ => _ end] =>
              lazymatch x with
              | context [match _ with _ => _ end] => fail
              | _ => destruct x eqn:?
              end
          end);
  cbv beta iota in *; simpl in *.

(** The listener never lets an exception out and leaves the sockets, the
    outbox and the listener table alone, whatever the frame. *)
Lemma on_message_frame ws message db_ok s :
  outcome (on_message ws message db_ok) s = Normal tt /\
  sockets (exec (on_message ws message db_ok) s) = sockets s /\
  outbox (exec (on_message ws message db_ok) s) = outbox s /\
  closeListeners (exec (on_message ws message db_ok) s) = closeListeners s.
Proof.
  unfold on_message. unfold_js. split_cases; repeat split.
Qed.

(** The registry after a frame: one [set] when the frame registers. *)
Lemma on_message_registry ws message db_ok s :
  screenConnections (exec (on_message ws message db_ok) s) =
  match registration_of (Message ws message db_ok) with
  | Some (k, c) => JsMap.set (screenConnections s) k c
  | None => screenConnections s
  end.
Proof.
  unfold on_message, registration_of. unfold_js. split_cases; congruence.
Qed.

Lemma on_message_storage ws message db_ok s :
  storage_calls (exec (on_message ws message db_ok) s) =
  storage_calls s ++
  match registration_of (Message ws message db_ok) with
  | Some (k, _) => [updateScreenOnlineStatus_call k true]
  | None => []
  end.
Proof.
  unfold on_message, registration_of. unfold_js.
  split_cases; try congruence; now rewrite ?app_nil_r.
Qed.

Lemma registration_of_conn e k c : registration_of e = Some (k, c) ->
  exists message db_ok, e = Message c message db_ok.
Proof.
  destruct e as [ws|ws [data|] db_ok|ws]; simpl; try discriminate.
  intros H. revert H. split_cases; try discriminate.
  intros [= <- <-]. eauto.
Qed.

Lemma close_scan_spec entries ws s :
  close_scan entries ws s =
  match first_held entries ws with
  | Some k => (if key_printable k then Normal tt else Throw TypeError, unregistered k s)
  | None => (Normal tt, s)
  end.
Proof.
  induction entries as [|[k c] entries IH]; simpl; [reflexivity|].
  destruct (Nat.eqb c ws); [|exact IH].
  unfold unregistered. unfold_js. destruct (key_printable k); simpl;
    now rewrite ?app_nil_r.
Qed.

Lemma on_close_spec ws s :
  on_close ws s =
  match first_held (screenConnections s) ws with
  | Some k => (if key_printable k then Normal tt else Throw TypeError, unregistered k s)
  | None => (Normal tt, s)
  end.
Proof. unfold on_close, bind, Map_entries. apply close_scan_spec. Qed.

(** [first_held] names the first entry with the socket as its value. *)
Lemma first_held_Some m ws k : first_held m ws = Some k ->
  exists l1 l2, m = l1 ++ (k, ws) :: l2 /\ ~ In ws (JsMap.values l1).
Proof.
  induction m as [|[k0 c0] m IH]; simpl; [discriminate|].
  destruct (Nat.eqb c0 ws) eqn:E.
  - apply Nat.eqb_eq in E. subst c0. intros [= ->].
    exists [], m. simpl. auto.
  - apply Nat.eqb_neq in E. intros H.
    destruct (IH H) as (l1 & l2 & -> & Hn).
    exists ((k0, c0) :: l1), l2. simpl. split; [reflexivity|].
    intros [?|?]; auto.
Qed.

Lemma first_held_None m ws : first_held m ws = None <-> ~ In ws (JsMap.values m).
Proof.
  induction m as [|[k0 c0] m IH]; simpl; [tauto|].
  destruct (Nat.eqb c0 ws) eqn:E.
  - apply Nat.eqb_eq in E. split; [discriminate|]. intros H. exfalso. auto.
  - apply Nat.eqb_neq in E. rewrite IH. tauto.
Qed.

Lemma first_held_split l1 l2 k ws :
  ~ In ws (JsMap.values l1) -> first_held (l1 ++ (k, ws) :: l2) ws = Some k.
Proof.
  induction l1 as [|[k0 c0] l1 IH]; simpl.
  - now rewrite Nat.eqb_refl.
  - intros H. destruct (Nat.eqb c0 ws) eqn:E.
    + apply Nat.eqb_eq in E. exfalso. auto.
    + apply IH. auto.
Qed.

(** ** Reachable registries *)

Lemma transport_registry ws r s :
  screenConnections (transport ws r s) = screenConnections s.
Proof. reflexivity. Qed.

Lemma step_wf s e :
  JsMap.wf (screenConnections s) -> JsMap.wf (screenConnections (Routes.step s e)).
Proof.
  intros H. destruct e as [ws|ws message db_ok|ws]; simpl.
  - exact H.
  - rewrite on_message_registry.
    destruct (registration_of _) as [[k c]|]; [now apply JsMapFacts.set_wf | exact H].
  - unfold exec. rewrite on_close_spec. simpl.
    destruct (first_held _ ws); simpl; [now apply JsMapFacts.delete_wf | exact H].
Qed.

Lemma run_wf trace s :
  JsMap.wf (screenConnections s) -> JsMap.wf (screenConnections (Routes.run trace s)).
Proof.
  revert s. induction trace as [|e trace IH]; simpl; intros s H; [exact H|].
  apply IH. now apply step_wf.
Qed.

Lemma initial_wf : JsMap.wf (screenConnections initial).
Proof. constructor. Qed.

Lemma run_app trace1 trace2 s :
  Routes.run (trace1 ++ trace2) s = Routes.run trace2 (Routes.run trace1 s).
Proof. apply fold_left_app. Qed.

(** ** Frames of the player protocol *)

(** C6: a [PLAYER_REGISTER] frame whose payload has no [deviceKey], or the
    empty string as [deviceKey], changes nothing: the listener completes
    normally and returns the state it was given, so the registry, the calls
    on [storage], the console and the [readyState] of every socket are the
    same, in either routes file. *)
Theorem register_without_deviceKey_is_noop
    ws data payload deviceKey db_ok s :
  get_prop data "type" = Normal (VStr "PLAYER_REGISTER") ->
  get_prop data "payload" = Normal payload ->
  get_prop payload "deviceKey" = Normal deviceKey ->
  deviceKey = VUndefined \/ deviceKey = VStr "" ->
  on_message ws (Some data) db_ok s = (Normal tt, s) /\
  Routes.step s (Message ws (Some data) db_ok) = s /\
  RoutesPublic.step s (Message ws (Some data) db_ok) = s.
Proof.
  intros Htype Hpayload Hkey Hempty.
  assert (H : on_message ws (Some data) db_ok s = (Normal tt, s)).
  { unfold on_message. unfold_js. rewrite Htype. simpl.
    rewrite Hpayload, Hkey. destruct Hempty; subst; reflexivity. }
  assert (H' : RoutesPublic.on_message_register_screen ws (Some data) s = (Normal tt, s)).
  { unfold RoutesPublic.on_message_register_screen. unfold_js.
    rewrite Htype. reflexivity. }
  split; [exact H|]. split; simpl; unfold exec.
  - now rewrite H.
  - rewrite H'. simpl. now rewrite H.
Qed.

Lemma register_without_deviceKey_is_noop_witness :
  on_message 1 (Some (player_register (VStr ""))) true initial = (Normal tt, initial) /\
  on_message 1 (Some (VObj 0 [("type", VStr "PLAYER_REGISTER"); ("payload", VObj 1 [])]))
    true initial = (Normal tt, initial).
Proof.
  split.
  - apply (register_without_deviceKey_is_noop 1 (player_register (VStr ""))
             (VObj 1 [("deviceKey", VStr "")]) (VStr "") true initial);
      [reflexivity | reflexivity | reflexivity | right; reflexivity].
  - apply (register_without_deviceKey_is_noop 1
             (VObj 0 [("type", VStr "PLAYER_REGISTER"); ("payload", VObj 1 [])])
             (VObj 1 []) VUndefined true initial);
      [reflexivity | reflexivity | reflexivity | left; reflexivity].
Defined.

(** C7, as amended: a frame that cannot be parsed, or whose [type] cannot
    be read, is reported with [console.error] and dropped; a frame whose
    [type] is some other value is dropped without a line on the console.  In
    each case the listener completes normally and the registry, the
    [readyState] of every socket, the outbox and the calls on [storage] stay
    as they were. *)
Theorem unhandled_frame_is_dropped ws message db_ok s :
  unhandled message = true ->
  outcome (on_message ws message db_ok) s = Normal tt /\
  screenConnections (exec (on_message ws message db_ok) s) = screenConnections s /\
  sockets (exec (on_message ws message db_ok) s) = sockets s /\
  outbox (exec (on_message ws message db_ok) s) = outbox s /\
  storage_calls (exec (on_message ws message db_ok) s) = storage_calls s /\
  console (exec (on_message ws message db_ok) s) =
    console s ++
    match message with
    | None => [error_handling_message SyntaxError]
    | Some data =>
        match get_prop data "type" with
        | Throw e => [error_handling_message e]
        | Normal _ => []
        end
    end.
Proof.
  unfold unhandled, on_message. unfold_js. intros H.
  destruct message as [data|]; simpl; [|repeat split].
  destruct (get_prop data "type") as [type|e]; simpl; [|repeat split].
  apply andb_prop in H. destruct H as [H1 H2].
  apply negb_true_iff in H1, H2. rewrite H1, H2. simpl.
  rewrite app_nil_r. destruct s; repeat split.
Qed.

Lemma unhandled_frame_is_dropped_witness :
  console (exec (on_message 1 None true) initial) =
    [error_handling_message SyntaxError] /\
  console (exec (on_message 1 (Some (VObj 0 [("type", VStr "PING")])) true) initial) = [] /\
  screenConnections (exec (on_message 1 None true) initial) = [].
Proof.
  pose proof (unhandled_frame_is_dropped 1 None true initial eq_refl)
    as (_ & Hreg & _ & _ & _ & Hcon).
  pose proof (unhandled_frame_is_dropped 1 (Some (VObj 0 [("type", VStr "PING")]))
                true initial eq_refl) as (_ & _ & _ & _ & _ & Hcon').
  split; [exact Hcon|]. split; [exact Hcon' | exact Hreg].
Defined.

(** C7, as stated, fails: a frame with an unknown [type] is dropped
    without being logged; the console has no line after it. *)
Lemma unknown_type_is_not_logged :
  let frame := Some (VObj 0 [("type", VStr "PING")]) in
  unhandled frame = true /\
  console (Routes.step initial (Message 1 frame true)) = console initial /\
  ~ (exists line, In line (console (Routes.step initial (Message 1 frame true)))).
Proof.
  simpl. repeat split. intros [line []].
Qed.

(** C8: a [PLAYER_STATUS] frame leaves the registry as it is, so every
    lookup answers as before; no call on [storage] is made, no socket
    changes its [readyState], nothing is sent, and the listener completes
    normally.  All it does is write one line on the console: the status,
    or the error when the payload cannot be read or its [deviceKey] does
    not convert to a string in the template literal.  The second routes
    file agrees on the registry. *)
Theorem player_status_changes_nothing ws data type db_ok s :
  get_prop data "type" = Normal type ->
  strict_eq_str type "PLAYER_STATUS" = true ->
  outcome (on_message ws (Some data) db_ok) s = Normal tt /\
  screenConnections (exec (on_message ws (Some data) db_ok) s) = screenConnections s /\
  (forall k, JsMap.get (screenConnections (Routes.step s (Message ws (Some data) db_ok))) k
             = JsMap.get (screenConnections s) k) /\
  storage_calls (exec (on_message ws (Some data) db_ok) s) = storage_calls s /\
  sockets (exec (on_message ws (Some data) db_ok) s) = sockets s /\
  outbox (exec (on_message ws (Some data) db_ok) s) = outbox s /\
  console (exec (on_message ws (Some data) db_ok) s) = console s ++ [status_line data] /\
  screenConnections (RoutesPublic.step s (Message ws (Some data) db_ok))
    = screenConnections s.
Proof.
  intros Htype Hstatus.
  assert (Hty : type = VStr "PLAYER_STATUS").
  { destruct type; try discriminate. simpl in Hstatus.
    apply String.eqb_eq in Hstatus. now subst. }
  subst type.
  assert (H : exec (on_message ws (Some data) db_ok) s =
              mkServer (screenConnections s) (sockets s) (outbox s) (storage_calls s)
                       (console s ++ [status_line data]) (closeListeners s) /\
              outcome (on_message ws (Some data) db_ok) s = Normal tt).
  { unfold on_message, status_line. unfold_js. rewrite Htype. simpl.
    destruct (get_prop data "payload") as [payload|e]; simpl; [|split; reflexivity].
    destruct (get_prop payload "deviceKey") as [dk|e] eqn:Hdk; simpl.
    - destruct (get_prop payload "status") as [st|e]; simpl; [|split; reflexivity].
      destruct (printable dk); simpl; split; reflexivity.
    - destruct (get_prop payload "status") as [st|e']; simpl; split; reflexivity. }
  destruct H as [H Hout].
  assert (H' : RoutesPublic.on_message_register_screen ws (Some data) s = (Normal tt, s)).
  { unfold RoutesPublic.on_message_register_screen. unfold_js.
    rewrite Htype. reflexivity. }
  simpl. unfold exec at 8. rewrite H'. simpl. rewrite H. simpl.
  repeat split; auto.
Qed.

Lemma player_status_changes_nothing_witness :
  let s := Routes.run [Message 1 (Some (player_register (VStr "A"))) true] initial in
  let s' := Routes.step s (Message 1 (Some (player_status (VStr "A") (VStr "ok"))) true) in
  JsMap.get (screenConnections s') (KStr "A") = Some 1 /\
  storage_calls s' = storage_calls s.
Proof.
  pose proof (player_status_changes_nothing 1 (player_status (VStr "A") (VStr "ok"))
                (VStr "PLAYER_STATUS") true
                (Routes.run [Message 1 (Some (player_register (VStr "A"))) true] initial)
                eq_refl eq_refl) as (_ & _ & Hget & Hst & _).
  split; [rewrite Hget; reflexivity | exact Hst].
Defined.

(** ** The registry along a run *)

Lemma step_registration s e k c :
  registration_of e = Some (k, c) ->
  screenConnections (Routes.step s e) = JsMap.set (screenConnections s) k c.
Proof.
  intros H. destruct (registration_of_conn _ _ _ H) as (message & db_ok & ->).
  unfold Routes.step. rewrite on_message_registry. now rewrite H.
Qed.

Lemma step_no_registration s e :
  registration_of e = None -> is_close e = false ->
  screenConnections (Routes.step s e) = screenConnections s.
Proof.
  intros H Hc. destruct e as [ws|ws message db_ok|ws].
  - reflexivity.
  - unfold Routes.step. rewrite on_message_registry. now rewrite H.
  - discriminate.
Qed.

Lemma step_close_get s ws k c :
  JsMap.wf (screenConnections s) ->
  JsMap.get (screenConnections (Routes.step s (Close ws))) k = Some c ->
  JsMap.get (screenConnections s) k = Some c.
Proof.
  intros Hwf. simpl. unfold exec. rewrite on_close_spec. simpl.
  destruct (first_held (screenConnections s) ws) as [k0|]; simpl; [|auto].
  key_cases k0 k.
  - rewrite JsMapFacts.get_delete_eq by assumption. discriminate.
  - now rewrite JsMapFacts.get_delete_ne.
Qed.

(** What a lookup can answer after a run from any well-formed state. *)
Lemma run_get_last trace : forall s k c,
  JsMap.wf (screenConnections s) ->
  JsMap.get (screenConnections (Routes.run trace s)) k = Some c ->
  last_registered trace k = Some c \/
  (last_registered trace k = None /\ JsMap.get (screenConnections s) k = Some c).
Proof.
  induction trace as [|e trace IH]; intros s k c Hwf Hget; simpl in *; [auto|].
  destruct (IH _ _ _ (step_wf s e Hwf) Hget) as [H|[Hnone H]].
  - left. now rewrite H.
  - rewrite Hnone. destruct (registration_of e) as [[k' ws]|] eqn:Hreg.
    + rewrite (step_registration _ _ _ _ Hreg) in H. key_cases k' k.
      * rewrite JsMapFacts.get_set_eq in H. now left.
      * rewrite JsMapFacts.get_set_ne in H by assumption. now right.
    + right. split; [reflexivity|].
      destruct (is_close e) eqn:Hc.
      * destruct e; try discriminate. now apply step_close_get in H.
      * now rewrite step_no_registration in H.
Qed.

Lemma run_get_close_free trace : forall s k,
  forallb (fun e => negb (is_close e)) trace = true ->
  JsMap.get (screenConnections (Routes.run trace s)) k =
  match last_registered trace k with
  | Some c => Some c
  | None => JsMap.get (screenConnections s) k
  end.
Proof.
  induction trace as [|e trace IH]; intros s k Hfree; simpl in *; [reflexivity|].
  apply andb_prop in Hfree. destruct Hfree as [He Hfree].
  apply negb_true_iff in He. rewrite (IH _ _ Hfree).
  destruct (last_registered trace k); [reflexivity|].
  destruct (registration_of e) as [[k' ws]|] eqn:Hreg.
  - rewrite (step_registration _ _ _ _ Hreg). key_cases k' k.
    + apply JsMapFacts.get_set_eq.
    + now apply JsMapFacts.get_set_ne.
  - now rewrite step_no_registration.
Qed.

Lemma filter_key_once (l : list jskey) k :
  NoDup l -> In k l -> List.length (filter (key_eqb k) l) = 1.
Proof.
  induction l as [|k0 l IH]; simpl; [tauto|].
  intros Hnd Hin. inversion Hnd as [|? ? Hnotin Hnd']; subst.
  key_cases k k0.
  - simpl. f_equal.
    assert (Hnone : filter (key_eqb k0) l = []).
    { clear -Hnotin. induction l as [|k1 l IH]; simpl; [reflexivity|].
      key_cases k0 k1.
      - exfalso. apply Hnotin. now left.
      - apply IH. intros Hin. apply Hnotin. now right. }
    now rewrite Hnone.
  - destruct Hin as [->|Hin]; [contradiction|]. auto.
Qed.

(** C9: two registrations of one socket under one key, one after the
    other, leave the registry exactly as the first one left it: the key
    answers with the socket and stands once among the keys.  On the map
    itself, a second [set] of the same pair changes nothing. *)
Theorem registration_is_idempotent trace e1 e2 k ws :
  registration_of e1 = Some (k, ws) ->
  registration_of e2 = Some (k, ws) ->
  let once := Routes.step (Routes.run trace initial) e1 in
  let twice := Routes.step once e2 in
  screenConnections twice = screenConnections once /\
  JsMap.get (screenConnections twice) k = Some ws /\
  List.length (filter (key_eqb k) (JsMap.keys (screenConnections twice))) = 1 /\
  (forall m, JsMap.set (JsMap.set m k ws) k ws = JsMap.set m k ws).
Proof.
  intros H1 H2 once twice. subst once twice.
  rewrite (step_registration _ _ _ _ H2), (step_registration _ _ _ _ H1).
  rewrite JsMapFacts.set_set.
  split; [reflexivity|]. split; [apply JsMapFacts.get_set_eq|]. split.
  - apply filter_key_once.
    + apply JsMapFacts.set_wf. apply run_wf, initial_wf.
    + pose proof (JsMapFacts.get_set_eq (screenConnections (Routes.run trace initial)) k ws) as G.
      apply JsMapFacts.get_In in G. change k with (fst (k, ws)). now apply in_map.
  - intros m. apply JsMapFacts.set_set.
Qed.

Lemma registration_is_idempotent_witness :
  let e := Message 1 (Some (player_register (VStr "A"))) true in
  screenConnections (Routes.run [e; e] initial) = screenConnections (Routes.run [e] initial) /\
  screenConnections (Routes.run [e; e] initial) = [(KStr "A", 1)].
Proof.
  intros e.
  destruct (registration_is_idempotent [] e e (KStr "A") 1 eq_refl eq_refl)
    as (H & _).
  split; [exact H | reflexivity].
Defined.

(** ** Closing a socket *)

Lemma skipn_app_exact {A} (l1 l2 : list A) : skipn (List.length l1) (l1 ++ l2) = l2.
Proof. induction l1 as [|a l1 IH]; simpl; auto. Qed.

Lemma get_values (m : JsMap.t) k ws : JsMap.get m k = Some ws -> In ws (JsMap.values m).
Proof.
  intros H. apply JsMapFacts.get_In in H.
  change ws with (snd (k, ws)). now apply in_map.
Qed.

Lemma close_step_spec s ws :
  Routes.step s (Close ws) =
  match first_held (screenConnections s) ws with
  | Some k => unregistered k (transport ws CLOSED s)
  | None => transport ws CLOSED s
  end.
Proof.
  unfold Routes.step, exec. rewrite on_close_spec. rewrite transport_registry.
  now destruct (first_held (screenConnections s) ws).
Qed.

(** In the first routes file a close of one socket never touches a key
    that answers with another socket, nor marks it offline. *)
Lemma close_keeps_other_sockets s k A B :
  JsMap.wf (screenConnections s) -> A <> B ->
  JsMap.get (screenConnections s) k = Some B ->
  JsMap.get (screenConnections (Routes.step s (Close A))) k = Some B /\
  ~ In (updateScreenOnlineStatus_call k false) (calls_since s (Routes.step s (Close A))).
Proof.
  intros Hwf Hne Hget. rewrite close_step_spec. unfold calls_since.
  destruct (first_held (screenConnections s) A) as [k0|] eqn:Hfirst; simpl.
  - destruct (first_held_Some _ _ _ Hfirst) as (l1 & l2 & Hm & _).
    assert (Hk0 : JsMap.get (screenConnections s) k0 = Some A).
    { apply JsMapFacts.In_get; [exact Hwf|]. rewrite Hm.
      apply in_or_app. right. now left. }
    assert (Hk : k0 <> k) by congruence.
    rewrite JsMapFacts.get_delete_ne by exact Hk. split; [exact Hget|].
    rewrite skipn_app_exact. simpl. intros [[= ->]|[]]. congruence.
  - split; [exact Hget|]. rewrite skipn_all. intros [].
Qed.

(** A registration stays in the registry while nothing is registered under
    its key and its socket does not close, whichever other sockets close. *)
Lemma run_keeps_registration trace : forall s k c,
  JsMap.wf (screenConnections s) ->
  JsMap.get (screenConnections s) k = Some c ->
  last_registered trace k = None ->
  never_closes c trace = true ->
  JsMap.get (screenConnections (Routes.run trace s)) k = Some c.
Proof.
  induction trace as [|e trace IH]; intros s k c Hwf Hget Hlast Hnc; [exact Hget|].
  simpl in Hlast, Hnc. apply andb_prop in Hnc. destruct Hnc as [He Hnc].
  destruct (last_registered trace k) eqn:Hrest; [discriminate|].
  change (Routes.run (e :: trace) s) with (Routes.run trace (Routes.step s e)).
  apply IH; [now apply step_wf | | exact Hrest | exact Hnc].
  destruct (registration_of e) as [[k' ws]|] eqn:Hreg.
  - rewrite (step_registration _ _ _ _ Hreg).
    key_cases k' k; [discriminate|]. now rewrite JsMapFacts.get_set_ne.
  - destruct e as [ws|ws message db_ok|ws].
    + exact Hget.
    + now rewrite step_no_registration.
    + apply negb_true_iff, Nat.eqb_neq in He.
      now apply close_keeps_other_sockets.
Qed.

(** C4: along every run of the first routes file the registry holds no key
    twice, so a key has at most one socket, and every event keeps it so; a
    lookup that answers gives the socket of the latest registration under
    that key, and in a run without closes it gives exactly that socket for
    every key; a registration makes its key answer with its socket and
    leaves the other keys alone; the close of a socket leaves every key that
    answers with another socket answering as before; and the socket of the
    latest registration under a key is what a lookup of the key answers for
    as long as that socket has not closed since. *)
Theorem registry_invariant trace :
  let s := Routes.run trace initial in
  JsMap.wf (screenConnections s) /\
  (forall k c1 c2, In (k, c1) (screenConnections s) ->
                   In (k, c2) (screenConnections s) -> c1 = c2) /\
  (forall e, JsMap.wf (screenConnections (Routes.step s e))) /\
  (forall k c, JsMap.get (screenConnections s) k = Some c ->
               last_registered trace k = Some c) /\
  (forallb (fun e => negb (is_close e)) trace = true ->
   forall k, JsMap.get (screenConnections s) k = last_registered trace k) /\
  (forall e k c, registration_of e = Some (k, c) ->
     JsMap.get (screenConnections (Routes.step s e)) k = Some c /\
     forall k', k' <> k ->
       JsMap.get (screenConnections (Routes.step s e)) k' =
       JsMap.get (screenConnections s) k') /\
  (forall ws k c, c <> ws ->
     JsMap.get (screenConnections s) k = Some c ->
     JsMap.get (screenConnections (Routes.step s (Close ws))) k = Some c) /\
  (forall earlier e later k c,
     trace = earlier ++ e :: later ->
     registration_of e = Some (k, c) ->
     last_registered later k = None ->
     never_closes c later = true ->
     JsMap.get (screenConnections s) k = Some c).
Proof.
  intros s. subst s.
  pose proof (run_wf trace initial initial_wf) as Hwf.
  split; [exact Hwf|]. split; [|split; [|split; [|split; [|split; [|split]]]]].
  - intros k c1 c2 H1 H2.
    apply (JsMapFacts.In_get _ _ _ Hwf) in H1, H2. congruence.
  - intros e. now apply step_wf.
  - intros k c H.
    destruct (run_get_last trace initial k c initial_wf H) as [H'|[_ H']];
      [exact H' | discriminate].
  - intros Hfree k. rewrite (run_get_close_free trace initial k Hfree).
    now destruct (last_registered trace k).
  - intros e k c Hreg. rewrite (step_registration _ _ _ _ Hreg). split.
    + apply JsMapFacts.get_set_eq.
    + intros k' Hne. apply JsMapFacts.get_set_ne. congruence.
  - intros ws k c Hne Hget.
    apply close_keeps_other_sockets; [exact Hwf | congruence | exact Hget].
  - intros earlier e later k c -> Hreg Hlast Hnc.
    rewrite run_app. change (e :: later) with ([e] ++ later). rewrite run_app.
    apply run_keeps_registration; [| | exact Hlast | exact Hnc].
    + apply run_wf, run_wf, initial_wf.
    + cbn [Routes.run fold_left]. rewrite (step_registration _ _ _ _ Hreg).
      apply JsMapFacts.get_set_eq.
Qed.

Lemma registry_invariant_witness :
  let trace := [Message 1 (Some (player_register (VStr "A"))) true;
                Message 2 (Some (player_register (VStr "A"))) true;
                Close 1] in
  JsMap.get (screenConnections (Routes.run trace initial)) (KStr "A") = Some 2 /\
  last_registered trace (KStr "A") = Some 2.
Proof.
  intros trace.
  destruct (registry_invariant trace) as (_ & _ & _ & Hlast & _ & _ & _ & Hkept).
  assert (H : JsMap.get (screenConnections (Routes.run trace initial)) (KStr "A") = Some 2).
  { apply (Hkept [Message 1 (Some (player_register (VStr "A"))) true]
                 (Message 2 (Some (player_register (VStr "A"))) true)
                 [Close 1]); reflexivity. }
  split; [exact H | exact (Hlast _ _ H)].
Defined.

(** C4, as stated, fails once a socket has closed: after socket 1 has
    registered under "A" and closed, the latest registration under "A" is
    still that of socket 1, and the lookup of "A" answers nothing. *)
Lemma closed_socket_is_not_looked_up :
  let trace := [Message 1 (Some (player_register (VStr "A"))) true; Close 1] in
  last_registered trace (KStr "A") = Some 1 /\
  JsMap.get (screenConnections (Routes.run trace initial)) (KStr "A") = None /\
  ~ lookup_is_latest trace.
Proof.
  intros trace. split; [reflexivity|]. split; [reflexivity|].
  intros H. specialize (H (KStr "A")). discriminate H.
Qed.

(** C10: in every run of the first routes file, a close takes out of the
    registry only the first entry, in insertion order, that holds the
    closing socket, and reports only that key offline; without such an entry
    nothing changes.  So when the socket stood under two different keys, one
    of them still answers with the now closed socket afterwards, and the one
    call on [storage] is for the key that was taken out. *)
Theorem close_removes_first_entry_only trace ws :
  let s := Routes.run trace initial in
  let s' := Routes.step s (Close ws) in
  (first_held (screenConnections s) ws = None ->
     screenConnections s' = screenConnections s /\ storage_calls s' = storage_calls s) /\
  (forall k, first_held (screenConnections s) ws = Some k ->
     exists l1 l2,
       screenConnections s = l1 ++ (k, ws) :: l2 /\
       ~ In ws (JsMap.values l1) /\
       screenConnections s' = l1 ++ l2 /\
       storage_calls s' = storage_calls s ++ [updateScreenOnlineStatus_call k false]) /\
  (forall k1 k2, k1 <> k2 ->
     JsMap.get (screenConnections s) k1 = Some ws ->
     JsMap.get (screenConnections s) k2 = Some ws ->
     exists removed kept,
       first_held (screenConnections s) ws = Some removed /\
       (kept = k1 \/ kept = k2) /\ kept <> removed /\
       JsMap.get (screenConnections s') kept = Some ws /\
       sockets s' ws = CLOSED /\
       calls_since s s' = [updateScreenOnlineStatus_call removed false]).
Proof.
  intros s s'. subst s'.
  assert (Hwf : JsMap.wf (screenConnections s)) by apply run_wf, initial_wf.
  rewrite close_step_spec. split; [|split].
  - intros ->. split; reflexivity.
  - intros k Hfirst. rewrite Hfirst.
    destruct (first_held_Some _ _ _ Hfirst) as (l1 & l2 & Hm & Hnot).
    exists l1, l2. split; [exact Hm|]. split; [exact Hnot|]. simpl.
    split; [|reflexivity]. rewrite Hm. apply JsMapFacts.delete_split.
    now rewrite <- Hm.
  - intros k1 k2 Hne H1 H2.
    destruct (first_held (screenConnections s) ws) as [removed|] eqn:Hfirst.
    + assert (Hkept : exists kept, (kept = k1 \/ kept = k2) /\ kept <> removed /\
                                   JsMap.get (screenConnections s) kept = Some ws).
      { key_cases k1 removed.
        - exists k2. repeat split; auto.
        - exists k1. repeat split; auto. }
      destruct Hkept as (kept & Hor & Hkr & Hget).
      exists removed, kept. split; [reflexivity|]. split; [exact Hor|].
      split; [exact Hkr|]. simpl. split; [|split].
      * rewrite JsMapFacts.get_delete_ne by congruence. exact Hget.
      * now rewrite Nat.eqb_refl.
      * unfold calls_since. simpl. apply skipn_app_exact.
    + exfalso. apply first_held_None in Hfirst. apply Hfirst.
      eapply get_values; eauto.
Qed.

Lemma close_removes_first_entry_only_witness :
  let trace := [Connection 1;
                Message 1 (Some (player_register (VStr "A"))) true;
                Message 1 (Some (player_register (VStr "B"))) true] in
  let s' := Routes.run (trace ++ [Close 1]) initial in
  exists removed kept,
    kept <> removed /\
    JsMap.get (screenConnections s') kept = Some 1 /\
    sockets s' 1 = CLOSED /\
    calls_since (Routes.run trace initial) s' = [updateScreenOnlineStatus_call removed false].
Proof.
  intros trace s'.
  destruct (close_removes_first_entry_only trace 1) as (_ & _ & H).
  destruct (H (KStr "A") (KStr "B")) as (removed & kept & _ & _ & Hne & Hget & Hsock & Hcalls);
    [discriminate | reflexivity | reflexivity |].
  exists removed, kept. subst s'. rewrite run_app.
  split; [exact Hne|]. split; [exact Hget|]. split; [exact Hsock | exact Hcalls].
Defined.

(** C3, on the second routes file: socket 1 announces itself with
    [REGISTER_SCREEN] under "k", socket 2 then registers under "k" with
    [PLAYER_REGISTER] and takes the entry over; when socket 1 closes, its own
    [close] listener deletes the key, and the entry of socket 2, which is
    still open, is gone.  The same exchange over [PLAYER_REGISTER] in the
    first routes file keeps the entry. *)
Theorem late_close_evicts_newer_registration :
  let trace := [Connection 1;
                Message 1 (Some (register_screen (VStr "k"))) true;
                Connection 2;
                Message 2 (Some (player_register (VStr "k"))) true] in
  let before := RoutesPublic.run trace initial in
  let after := RoutesPublic.step before (Close 1) in
  JsMap.get (screenConnections before) (KStr "k") = Some 2 /\
  JsMap.get (screenConnections after) (KStr "k") = None /\
  screenConnections after = [] /\
  sockets after 2 = OPEN /\
  calls_since before after = [] /\
  JsMap.get (screenConnections
               (Routes.run [Connection 1;
                            Message 1 (Some (player_register (VStr "k"))) true;
                            Connection 2;
                            Message 2 (Some (player_register (VStr "k"))) true;
                            Close 1] initial)) (KStr "k") = Some 2.
Proof.
  repeat split.
Qed.

(** ** The dispatch loop *)

Lemma with_frames_nil s : with_frames s [] = s.
Proof. destruct s. unfold with_frames. simpl. now rewrite app_nil_r. Qed.

Lemma with_frames_app s f1 f2 :
  with_frames (with_frames s f1) f2 = with_frames s (f1 ++ f2).
Proof. unfold with_frames. simpl. now rewrite app_assoc. Qed.

Lemma deliverable_with_frames s frames screenId :
  deliverable (with_frames s frames) screenId = deliverable s screenId.
Proof. reflexivity. Qed.

Lemma frames_for_with_frames s frames message screenIds :
  frames_for (with_frames s frames) message screenIds = frames_for s message screenIds.
Proof. reflexivity. Qed.

(** One turn of the loop on a state whose outbox has grown. *)
Lemma forEach_cons throws message screenId rest s :
  forEach_screenId throws message (screenId :: rest) s =
  match deliverable s screenId with
  | Some screen =>
      if throws screen then (Throw SendError, s)
      else forEach_screenId throws message rest (with_frames s [(screen, message)])
  | None => forEach_screenId throws message rest s
  end.
Proof.
  unfold deliverable. simpl. unfold_js.
  destruct (JsMap.get (screenConnections s) (KStr screenId)) as [screen|]; [|reflexivity].
  destruct (is_open (sockets s screen)); [|reflexivity].
  destruct (throws screen); reflexivity.
Qed.

(** Whatever raises, the loop only ever adds a prefix of the frames the
    list calls for, and touches nothing but the outbox. *)
Lemma forEach_prefix throws message screenIds : forall s,
  exists sent later,
    snd (forEach_screenId throws message screenIds s) = with_frames s sent /\
    frames_for s message screenIds = sent ++ later.
Proof.
  induction screenIds as [|screenId rest IH]; intros s.
  - exists [], []. simpl. now rewrite with_frames_nil.
  - rewrite forEach_cons. unfold frames_for. simpl. fold (frames_for s message rest).
    destruct (deliverable s screenId) as [screen|].
    + destruct (throws screen).
      * exists [], ([(screen, message)] ++ frames_for s message rest).
        simpl. now rewrite with_frames_nil.
      * destruct (IH (with_frames s [(screen, message)])) as (sent & later & Hs & Hf).
        exists ((screen, message) :: sent), later. rewrite Hs, with_frames_app.
        split; [reflexivity|]. rewrite frames_for_with_frames in Hf.
        simpl. now rewrite Hf.
    + destruct (IH s) as (sent & later & Hs & Hf). exists sent, later. auto.
Qed.

(** When no send raises, the loop completes and adds all of them. *)
Lemma forEach_complete throws message screenIds : forall s,
  (forall screenId ws, In screenId screenIds -> deliverable s screenId = Some ws ->
                       throws ws = false) ->
  forEach_screenId throws message screenIds s =
  (Normal tt, with_frames s (frames_for s message screenIds)).
Proof.
  induction screenIds as [|screenId rest IH]; intros s Hok.
  - simpl. now rewrite with_frames_nil.
  - rewrite forEach_cons. unfold frames_for. simpl. fold (frames_for s message rest).
    destruct (deliverable s screenId) as [screen|] eqn:Hd.
    + rewrite (Hok screenId screen (or_introl eq_refl) Hd).
      rewrite IH.
      * now rewrite with_frames_app, frames_for_with_frames.
      * intros id ws Hin. rewrite deliverable_with_frames. intros H.
        apply (Hok id ws); [now right | exact H].
    + apply IH. intros id ws Hin. apply Hok. now right.
Qed.

(** A send that raises ends the loop on the spot: nothing is handed to any
    later element of the list. *)
Lemma forEach_abort throws message screenId rest s ws :
  deliverable s screenId = Some ws -> throws ws = true ->
  forEach_screenId throws message (screenId :: rest) s = (Throw SendError, s).
Proof. intros Hd Ht. rewrite forEach_cons, Hd, Ht. reflexivity. Qed.

(** The loop of [routes_new.ts] goes on after a send that raises. *)
Lemma broadcast_loop_continues throws message ws rest s :
  is_open (sockets s ws) = true -> throws ws = true ->
  broadcast_loop throws message (ws :: rest) s =
  broadcast_loop throws message rest
    (mkServer (screenConnections s) (sockets s) (outbox s) (storage_calls s)
              (console s ++ [error_broadcasting_to_screen SendError])
              (closeListeners s)).
Proof.
  intros Ho Ht. simpl. unfold_js. rewrite Ho, Ht. reflexivity.
Qed.

Lemma frames_for_In s message screenIds ws m :
  In (ws, m) (frames_for s message screenIds) <->
  m = message /\ exists screenId, In screenId screenIds /\ deliverable s screenId = Some ws.
Proof.
  unfold frames_for. rewrite in_flat_map. split.
  - intros (screenId & Hin & H). destruct (deliverable s screenId) as [c|] eqn:Hd.
    + destruct H as [[= <- <-]|[]]. split; [reflexivity|]. eauto.
    + destruct H.
  - intros (-> & screenId & Hin & Hd). exists screenId. split; [exact Hin|].
    rewrite Hd. now left.
Qed.

Lemma frames_for_none s message screenIds :
  (forall screenId, In screenId screenIds -> deliverable s screenId = None) ->
  frames_for s message screenIds = [].
Proof.
  intros H. induction screenIds as [|screenId rest IH]; [reflexivity|].
  unfold frames_for. simpl. rewrite (H screenId (or_introl eq_refl)). simpl.
  apply IH. intros id Hin. apply H. now right.
Qed.

Lemma frames_to_none ws frames :
  (forall m, ~ In (ws, m) frames) -> frames_to ws frames = [].
Proof.
  intros H. induction frames as [|[c m] frames IH]; [reflexivity|].
  unfold frames_to. simpl. destruct (Nat.eqb c ws) eqn:E.
  - apply Nat.eqb_eq in E. subst c. exfalso. apply (H m). now left.
  - apply IH. intros m' Hin. apply (H m'). now right.
Qed.

Lemma frames_for_cons s message screenId rest :
  frames_for s message (screenId :: rest) =
  match deliverable s screenId with
  | Some screen => [(screen, message)]
  | None => []
  end ++ frames_for s message rest.
Proof. reflexivity. Qed.

Lemma frames_to_app ws f1 f2 :
  frames_to ws (f1 ++ f2) = frames_to ws f1 ++ frames_to ws f2.
Proof. apply filter_app. Qed.

(** In a list without repetition, a socket that only one element resolves
    to finds one frame. *)
Lemma frames_to_once s message screenIds screenId ws :
  NoDup screenIds -> In screenId screenIds ->
  deliverable s screenId = Some ws ->
  (forall other, In other screenIds -> deliverable s other = Some ws -> other = screenId) ->
  frames_to ws (frames_for s message screenIds) = [(ws, message)].
Proof.
  induction screenIds as [|hd rest IH]; intros Hnd Hin Hd Huniq; [destruct Hin|].
  inversion Hnd as [|? ? Hnotin Hnd']; subst.
  rewrite frames_for_cons, frames_to_app.
  destruct Hin as [->|Hin].
  - rewrite Hd. unfold frames_to at 1. simpl. rewrite Nat.eqb_refl. simpl. f_equal.
    apply frames_to_none. intros m Hm. apply frames_for_In in Hm.
    destruct Hm as (_ & other & Hother & Hdo).
    apply Hnotin. rewrite <- (Huniq other); auto. now right.
  - assert (Hhd : forall c, deliverable s hd = Some c -> c <> ws).
    { intros c Hc ->. apply Hnotin. rewrite (Huniq hd); auto. now left. }
    rewrite IH; auto.
    + destruct (deliverable s hd) as [c|]; [|reflexivity]. unfold frames_to. simpl.
      destruct (Nat.eqb c ws) eqn:E; [|reflexivity].
      apply Nat.eqb_eq in E. exfalso. now apply (Hhd c).
    + intros other Ho. apply Huniq. now right.
Qed.

(** ** The broadcast route *)

Lemma deliverable_get s screenId ws :
  deliverable s screenId = Some ws ->
  JsMap.get (screenConnections s) (KStr screenId) = Some ws /\ sockets s ws = OPEN.
Proof.
  unfold deliverable.
  destruct (JsMap.get (screenConnections s) (KStr screenId)) as [c|]; [|discriminate].
  destruct (sockets s c) eqn:E; simpl; try discriminate.
  intros [= ->]. auto.
Qed.

Lemma last_registered_In trace k ws :
  last_registered trace k = Some ws ->
  exists e, In e trace /\ registration_of e = Some (k, ws).
Proof.
  induction trace as [|e trace IH]; simpl; [discriminate|].
  destruct (last_registered trace k) as [c|].
  - intros [= ->]. destruct (IH eq_refl) as (e' & Hin & H). eauto.
  - destruct (registration_of e) as [[k' c]|] eqn:Hreg; [|discriminate].
    key_cases k' k; [|discriminate]. intros [= ->]. eauto.
Qed.

(** The route adds frames to the outbox and nothing else reaches a socket;
    each frame added is one the list calls for. *)
Lemma post_broadcasts_sent JSON_stringify req s :
  exists sent,
    outbox (snd (post_broadcasts JSON_stringify req s)) = outbox s ++ sent /\
    screenConnections (snd (post_broadcasts JSON_stringify req s)) = screenConnections s /\
    forall ws m, In (ws, m) sent ->
      exists screenIds playlist,
        validated_screenIds req = Some screenIds /\
        playlist_found req = Some playlist /\
        In (ws, m) (frames_for s (JSON_stringify (load_playlist playlist (broadcast_id req)))
                               screenIds).
Proof.
  unfold post_broadcasts.
  destruct (has_organization req); simpl;
    [|exists []; unfold_js; simpl; rewrite app_nil_r; repeat split; intros ? ? []].
  destruct (validated_screenIds req) as [screenIds|];
    [|exists []; unfold_js; simpl; rewrite app_nil_r; repeat split; intros ? ? []].
  destruct (playlist_found req) as [playlist|];
    [|exists []; unfold_js; simpl; rewrite app_nil_r; repeat split; intros ? ? []].
  set (message := JSON_stringify (load_playlist playlist (broadcast_id req))).
  set (s1 := mkServer (screenConnections s) (sockets s) (outbox s)
                      (storage_calls s ++ [createBroadcast_call screenIds])
                      (console s) (closeListeners s)).
  destruct (forEach_prefix (send_throws req) message screenIds s1)
    as (sent & later & Hs & Hf).
  exists sent. unfold_js. fold s1.
  destruct (forEach_screenId (send_throws req) message screenIds s1) as [[[]|e] s2];
    simpl in Hs; subst s2; simpl; (split; [reflexivity|]); (split; [reflexivity|]);
    intros ws m Hin; exists screenIds, playlist;
    (split; [reflexivity|]); (split; [reflexivity|]);
    change (In (ws, m) (frames_for s1 message screenIds));
    rewrite Hf; apply in_or_app; now left.
Qed.

(** C2: however the registry was reached in the first routes file, every
    frame the route hands out goes to the socket found under a listed
    string taken as a registry key, and that socket is the one that last
    registered with exactly this string as its [deviceKey].  Hence a screen
    whose socket stands in the registry under its [deviceKey] only gets no
    frame when the list does not hold that key, as when it names the screen
    by its [id]. *)
Theorem broadcast_reaches_registered_deviceKeys_only JSON_stringify trace req :
  let s := Routes.run trace initial in
  exists sent,
    outbox (snd (post_broadcasts JSON_stringify req s)) = outbox s ++ sent /\
    (forall ws m, In (ws, m) sent ->
       exists screenIds screenId e,
         validated_screenIds req = Some screenIds /\
         In screenId screenIds /\
         JsMap.get (screenConnections s) (KStr screenId) = Some ws /\
         last_registered trace (KStr screenId) = Some ws /\
         In e trace /\ registration_of e = Some (KStr screenId, ws)) /\
    (forall (screen : Screen) ws screenIds,
       validated_screenIds req = Some screenIds ->
       (forall k, JsMap.get (screenConnections s) k = Some ws ->
                  k = KStr (screen_deviceKey screen)) ->
       ~ In (screen_deviceKey screen) screenIds ->
       frames_to ws sent = []).
Proof.
  intros s.
  destruct (post_broadcasts_sent JSON_stringify req s) as (sent & Hout & _ & Hsent).
  exists sent. split; [exact Hout|]. split.
  - intros ws m Hin.
    destruct (Hsent ws m Hin) as (screenIds & playlist & Hv & _ & Hf).
    apply frames_for_In in Hf. destruct Hf as (_ & screenId & Hid & Hd).
    apply deliverable_get in Hd. destruct Hd as [Hget _].
    destruct (run_get_last trace initial _ _ initial_wf Hget) as [Hl|[_ Hl]];
      [|discriminate].
    destruct (last_registered_In _ _ _ Hl) as (e & He & Hreg).
    exists screenIds, screenId, e. repeat split; assumption.
  - intros screen ws screenIds Hv Honly Hnot.
    apply frames_to_none. intros m Hin.
    destruct (Hsent ws m Hin) as (screenIds' & playlist & Hv' & _ & Hf).
    rewrite Hv in Hv'. injection Hv' as <-.
    apply frames_for_In in Hf. destruct Hf as (_ & screenId & Hid & Hd).
    apply deliverable_get in Hd. destruct Hd as [Hget _].
    apply Honly in Hget. injection Hget as ->. contradiction.
Qed.

Lemma broadcast_reaches_registered_deviceKeys_only_witness :
  let screen := mkScreen "screen-7" "key-7" in
  let trace := [Connection 1;
                Message 1 (Some (player_register (VStr (screen_deviceKey screen)))) true] in
  let req := mkRequest true (Some [screen_id screen]) (Some (mkPlaylistRow 9 [])) "b1" (fun _ => false) in
  sent_by (post_broadcasts (fun _ => "frame") req) (Routes.run trace initial) = [] /\
  exists sent,
    outbox (snd (post_broadcasts (fun _ => "frame") req (Routes.run trace initial))) =
      outbox (Routes.run trace initial) ++ sent /\
    frames_to 1 sent = [].
Proof.
  intros screen trace req. split; [reflexivity|].
  destruct (broadcast_reaches_registered_deviceKeys_only (fun _ => "frame") trace req)
    as (sent & Hout & _ & Hnone).
  exists sent. split; [exact Hout|].
  apply (Hnone screen 1 [screen_id screen]); [reflexivity | |].
  - intros k H. apply JsMapFacts.get_In in H.
    destruct H as [[= <-]|[]]. reflexivity.
  - intros [H|[]]. discriminate.
Defined.

(** C5, as amended: when the route reaches the loop and no send raises,
    it answers 200 with nothing written on the console and the registry as
    it was, and the outbox grows by one frame for each element of the list
    that is mapped to an open socket, in the order of the list, every frame
    being the one serialization made before the loop.  So a frame goes to a
    socket exactly when a listed target resolves to it; elements that are
    absent or not open add nothing; a list none of whose members is
    deliverable adds no frame; and in a list without repetition a target
    alone on its socket finds one frame. *)
Theorem dispatch_sends_one_frame_per_listed_open_target
    JSON_stringify req s screenIds playlist :
  has_organization req = true ->
  validated_screenIds req = Some screenIds ->
  playlist_found req = Some playlist ->
  (forall screenId ws, In screenId screenIds -> deliverable s screenId = Some ws ->
                       send_throws req ws = false) ->
  let message := JSON_stringify (load_playlist playlist (broadcast_id req)) in
  let s' := snd (post_broadcasts JSON_stringify req s) in
  fst (post_broadcasts JSON_stringify req s) = Normal status_200 /\
  console s' = console s /\
  screenConnections s' = screenConnections s /\
  outbox s' = outbox s ++ frames_for s message screenIds /\
  sent_by (post_broadcasts JSON_stringify req) s =
    flat_map (fun screenId =>
                match deliverable s screenId with
                | Some screen => [(screen, message)]
                | None => []
                end) screenIds /\
  (forall ws m, In (ws, m) (sent_by (post_broadcasts JSON_stringify req) s) <->
                m = message /\
                exists screenId, In screenId screenIds /\ deliverable s screenId = Some ws) /\
  ((forall screenId, In screenId screenIds -> deliverable s screenId = None) ->
   sent_by (post_broadcasts JSON_stringify req) s = []) /\
  (NoDup screenIds ->
   forall screenId ws, In screenId screenIds -> deliverable s screenId = Some ws ->
     (forall other, In other screenIds -> deliverable s other = Some ws -> other = screenId) ->
     frames_to ws (sent_by (post_broadcasts JSON_stringify req) s) = [(ws, message)]).
Proof.
  intros Horg Hv Hp Hok message s'.
  set (s1 := mkServer (screenConnections s) (sockets s) (outbox s)
                      (storage_calls s ++ [createBroadcast_call screenIds])
                      (console s) (closeListeners s)).
  assert (Hrun : post_broadcasts JSON_stringify req s =
                 (Normal status_200,
                  mkServer (screenConnections s) (sockets s)
                           (outbox s ++ frames_for s message screenIds)
                           ((storage_calls s ++ [createBroadcast_call screenIds])
                              ++ [updateBroadcast_call (broadcast_id req)]
                              ++ [createAuditLog_call (broadcast_id req)])
                           (console s) (closeListeners s))).
  { unfold post_broadcasts. rewrite Horg, Hv, Hp. simpl. unfold_js. fold s1. fold message.
    rewrite (forEach_complete (send_throws req) message screenIds s1 Hok).
    unfold with_frames. simpl. now rewrite <- app_assoc. }
  assert (Hsent : sent_by (post_broadcasts JSON_stringify req) s =
                  frames_for s message screenIds).
  { unfold sent_by. rewrite Hrun. simpl. apply skipn_app_exact. }
  subst s'. rewrite Hsent, Hrun. simpl.
  do 5 (split; [reflexivity|]).
  split; [intros ws m; apply frames_for_In|].
  split; [apply frames_for_none|].
  intros Hnd screenId ws. now apply frames_to_once.
Qed.

Lemma dispatch_sends_one_frame_per_listed_open_target_witness :
  let s := Routes.run [Connection 1; Connection 2;
                       Message 1 (Some (player_register (VStr "A"))) true;
                       Message 2 (Some (player_register (VStr "B"))) true] initial in
  let req := mkRequest true (Some ["A"; "B"; "C"]) (Some (mkPlaylistRow 9 [])) "x" (fun _ => false) in
  outbox (snd (post_broadcasts (fun _ => "frame") req s)) = [(1, "frame"); (2, "frame")] /\
  fst (post_broadcasts (fun _ => "frame") req s) = Normal status_200.
Proof.
  intros s req.
  destruct (dispatch_sends_one_frame_per_listed_open_target
              (fun _ => "frame") req s ["A"; "B"; "C"] (mkPlaylistRow 9 []) eq_refl eq_refl eq_refl
              (fun _ _ _ _ => eq_refl)) as (Hfst & _ & _ & Hout & _).
  split; [exact Hout | exact Hfst].
Defined.

(** C5, as stated, fails for a list that names a target twice: target "A"
    is mapped to the open socket 1 and finds two frames, not one. *)
Lemma listed_twice_sent_twice :
  let s := Routes.run [Connection 1;
                       Message 1 (Some (player_register (VStr "A"))) true] initial in
  let req := mkRequest true (Some ["A"; "A"]) (Some (mkPlaylistRow 9 [])) "x" (fun _ => false) in
  deliverable s "A" = Some 1 /\
  sent_by (post_broadcasts (fun _ => "frame") req) s = [(1, "frame"); (1, "frame")] /\
  ~ each_listed_target_sent_once (fun _ => "frame") req s.
Proof.
  intros s req. split; [reflexivity|]. split; [reflexivity|].
  intros H.
  specialize (H ["A"; "A"] (mkPlaylistRow 9 []) "A" 1 eq_refl eq_refl (or_introl eq_refl) eq_refl).
  discriminate H.
Qed.

(** C1, on the code: sockets 1 and 2 are registered as "A" and "B", both
    open, and [send] raises on socket 1.  The loop of the route stops at "A":
    the one [catch] of the route logs the error and answers 500, and socket 2
    is handed nothing although its own [send] would not raise.  On the same
    state the loop of [broadcastToScreens] catches inside the loop and does
    reach socket 2. *)
Theorem send_error_aborts_dispatch JSON_stringify playlist :
  let s := Routes.run [Connection 1; Connection 2;
                       Message 1 (Some (player_register (VStr "A"))) true;
                       Message 2 (Some (player_register (VStr "B"))) true] initial in
  let req := mkRequest true (Some ["A"; "B"]) (Some playlist) "x" (fun ws => Nat.eqb ws 1) in
  let message := JSON_stringify (load_playlist playlist "x") in
  deliverable s "B" = Some 2 /\
  send_throws req 2 = false /\
  fst (post_broadcasts JSON_stringify req s) = Normal status_500 /\
  sent_by (post_broadcasts JSON_stringify req) s = [] /\
  console (snd (post_broadcasts JSON_stringify req s)) =
    console s ++ [error_creating_broadcast SendError] /\
  sent_by (broadcastToScreens JSON_stringify (send_throws req) (load_playlist playlist "x")) s
    = [(2, message)].
Proof.
  repeat split.
Qed.

(** * Further properties of the server *)

(** ** [broadcastToScreens] *)

Lemma broadcast_loop_spec throws message connections : forall s,
  broadcast_loop throws message connections s =
  (Normal tt,
   mkServer (screenConnections s) (sockets s)
            (outbox s ++ map (fun ws => (ws, message)) (filter (reached throws s) connections))
            (storage_calls s)
            (console s ++ map (fun _ => error_broadcasting_to_screen SendError)
                              (filter (failed throws s) connections))
            (closeListeners s)).
Proof.
  induction connections as [|ws rest IH]; intros s.
  - simpl. unfold ret. destruct s. simpl. now rewrite !app_nil_r.
  - cbn [broadcast_loop]. unfold bind at 1.
    assert (Hone :
      try_catch
        (state <- readyState ws ;;
         if is_open state then send throws ws message else ret tt)
        (fun error => console_write (error_broadcasting_to_screen error)) s =
      (Normal tt,
       mkServer (screenConnections s) (sockets s)
                (outbox s ++ if reached throws s ws then [(ws, message)] else [])
                (storage_calls s)
                (console s ++ if failed throws s ws
                              then [error_broadcasting_to_screen SendError] else [])
                (closeListeners s))).
    { unfold reached, failed. unfold_js.
      destruct (is_open (sockets s ws)); simpl.
      - destruct (throws ws); simpl; now rewrite app_nil_r.
      - destruct s; simpl. now rewrite !app_nil_r. }
    rewrite Hone, IH. simpl. f_equal. unfold reached, failed. simpl.
    f_equal.
    + rewrite <- app_assoc. f_equal.
      destruct (is_open (sockets s ws) && negb (throws ws)); reflexivity.
    + rewrite <- app_assoc. f_equal.
      destruct (is_open (sockets s ws) && throws ws); reflexivity.
Qed.

(** X1: [broadcastToScreens] never raises, whatever the sockets do.  It
    hands the one serialized message to every registered socket that is open
    and whose [send] does not raise, in insertion order and once per entry,
    writes one error line for every open socket whose [send] raises, and
    leaves the registry, the sockets and the storage alone. *)
Theorem broadcastToScreens_reaches_every_open_socket JSON_stringify throws data s :
  let s' := snd (broadcastToScreens JSON_stringify throws data s) in
  fst (broadcastToScreens JSON_stringify throws data s) = Normal tt /\
  outbox s' = outbox s ++
              map (fun ws => (ws, JSON_stringify data))
                  (filter (reached throws s) (JsMap.values (screenConnections s))) /\
  console s' = console s ++
               map (fun _ => error_broadcasting_to_screen SendError)
                   (filter (failed throws s) (JsMap.values (screenConnections s))) /\
  screenConnections s' = screenConnections s /\
  sockets s' = sockets s /\
  storage_calls s' = storage_calls s.
Proof.
  unfold broadcastToScreens. rewrite broadcast_loop_spec. simpl. repeat split.
Qed.

(** ** The listeners of [routes_new.ts] *)

(** X2: in [routes_new.ts] a frame of type [register] always stores the
    socket, under whatever the frame has as [deviceKey], [undefined]
    included, since the key is not tested.  No call on the storage is made
    and no exception leaves the listener.  What follows the [set] depends on
    the key: when it converts to a string, the line telling of the
    registration is written and the acknowledgment handed to the socket,
    or the error of its [send] logged when that raises; when it does not
    convert, the log line raises, the [TypeError] is logged and no
    acknowledgment is sent.  The socket stays registered either way. *)
Theorem routes_new_register_stores_any_key
    JSON_stringify throws ws data type deviceKey s :
  get_prop data "type" = Normal type ->
  strict_eq_str type "register" = true ->
  get_prop data "deviceKey" = Normal deviceKey ->
  let m := RoutesNew.on_message JSON_stringify throws ws (Some data) in
  outcome m s = Normal tt /\
  screenConnections (exec m s) = JsMap.set (screenConnections s) (to_key deviceKey) ws /\
  JsMap.get (screenConnections (exec m s)) (to_key deviceKey) = Some ws /\
  storage_calls (exec m s) = storage_calls s /\
  outbox (exec m s) =
    outbox s ++ (if printable deviceKey && negb (throws ws)
                 then [(ws, JSON_stringify (RoutesNew.registered deviceKey))]
                 else []) /\
  console (exec m s) =
    console s ++ (if printable deviceKey
                  then log_screen_connected (to_key deviceKey)
                       :: (if throws ws then [error_handling_message SendError] else [])
                  else [error_handling_message TypeError]).
Proof.
  intros Htype Hreg Hkey m. subst m.
  unfold RoutesNew.on_message. unfold_js. rewrite Htype. simpl. rewrite Hreg, Hkey.
  destruct (printable deviceKey); simpl;
    [destruct (throws ws); simpl|];
    rewrite ?app_nil_r, <- ?app_assoc; simpl;
    repeat split; apply JsMapFacts.get_set_eq.
Qed.

Lemma routes_new_register_stores_any_key_witness :
  let frame := VObj 0 [("type", VStr "register")] in
  JsMap.get (screenConnections
               (exec (RoutesNew.on_message (fun _ => "ack") (fun _ => true) 3 (Some frame))
                     initial)) KUndefined = Some 3.
Proof.
  intros frame.
  destruct (routes_new_register_stores_any_key (fun _ => "ack") (fun _ => true) 3 frame
              (VStr "register") VUndefined initial eq_refl eq_refl eq_refl)
    as (_ & _ & H & _).
  exact H.
Defined.

Lemma routes_new_close_scan_spec entries ws s :
  RoutesNew.close_scan entries ws s =
  match first_held entries ws with
  | Some k =>
      (if key_printable k then Normal tt else Throw TypeError,
       mkServer (JsMap.delete (screenConnections s) k) (sockets s) (outbox s)
                (storage_calls s)
                (console s ++ if key_printable k then [log_screen_disconnected k] else [])
                (closeListeners s))
  | None => (Normal tt, s)
  end.
Proof.
  induction entries as [|[k c] entries IH]; simpl; [reflexivity|].
  destruct (Nat.eqb c ws); [|exact IH].
  unfold_js. destruct (key_printable k); simpl; now rewrite ?app_nil_r.
Qed.

Lemma routes_new_message_storage JSON_stringify throws ws message s :
  storage_calls (exec (RoutesNew.on_message JSON_stringify throws ws message) s)
  = storage_calls s.
Proof.
  unfold RoutesNew.on_message. unfold_js. split_cases; reflexivity.
Qed.

Lemma routes_new_message_wf JSON_stringify throws ws message s :
  JsMap.wf (screenConnections s) ->
  JsMap.wf (screenConnections (exec (RoutesNew.on_message JSON_stringify throws ws message) s)).
Proof.
  intros H. unfold RoutesNew.on_message. unfold_js.
  split_cases; auto; now apply JsMapFacts.set_wf.
Qed.

(** X3: the listeners of [routes_new.ts] never call the storage: along
    every run the calls recorded are the ones that were there, so no screen
    is reported online or offline from this file; and the registry keeps
    holding no key twice. *)
Theorem routes_new_never_reports_status JSON_stringify throws trace : forall s,
  storage_calls (RoutesNew.run JSON_stringify throws trace s) = storage_calls s /\
  (JsMap.wf (screenConnections s) ->
   JsMap.wf (screenConnections (RoutesNew.run JSON_stringify throws trace s))).
Proof.
  induction trace as [|e trace IH]; intros s; [split; auto|].
  simpl. destruct (IH (RoutesNew.step JSON_stringify throws s e)) as [Hs Hwf].
  assert (Hstep : storage_calls (RoutesNew.step JSON_stringify throws s e) = storage_calls s /\
                  (JsMap.wf (screenConnections s) ->
                   JsMap.wf (screenConnections (RoutesNew.step JSON_stringify throws s e)))).
  { destruct e as [ws|ws message db_ok|ws]; simpl.
    - split; auto.
    - split; [apply routes_new_message_storage | apply routes_new_message_wf].
    - unfold exec, RoutesNew.on_close, bind, Map_entries.
      rewrite routes_new_close_scan_spec. simpl.
      destruct (first_held (screenConnections s) ws); simpl; split; auto.
      apply JsMapFacts.delete_wf. }
  destruct Hstep as [Hs' Hwf']. split; [congruence | auto].
Qed.

Lemma routes_new_never_reports_status_witness :
  let trace := [Connection 1; Message 1 (Some (VObj 0 [("type", VStr "register");
                                                       ("deviceKey", VStr "A")])) true;
                Close 1] in
  JsMap.wf (screenConnections (RoutesNew.run (fun _ => "ack") (fun _ => false) trace initial)) /\
  storage_calls (RoutesNew.run (fun _ => "ack") (fun _ => false) trace initial) = [].
Proof.
  intros trace.
  destruct (routes_new_never_reports_status (fun _ => "ack") (fun _ => false) trace initial)
    as [Hs Hwf].
  split; [apply Hwf, initial_wf | exact Hs].
Defined.

(** ** The second routes file *)

Lemma key_printable_to_key v : key_printable (to_key v) = printable v.
Proof. destruct v; reflexivity. Qed.

Lemma register_screen_spec ws message s :
  RoutesPublic.on_message_register_screen ws message s =
  match message with
  | None => (Normal tt,
             mkServer (screenConnections s) (sockets s) (outbox s) (storage_calls s)
                      (console s ++ [error_handling_message SyntaxError]) (closeListeners s))
  | Some data =>
      match get_prop data "type" with
      | Throw e =>
          (Normal tt,
           mkServer (screenConnections s) (sockets s) (outbox s) (storage_calls s)
                    (console s ++ [error_handling_message e]) (closeListeners s))
      | Normal type =>
          match get_prop data "screenId" with
          | Normal screenId =>
              if strict_eq_str type "REGISTER_SCREEN" && truthy screenId then
                if printable screenId then
                  (Normal tt,
                   mkServer (JsMap.set (screenConnections s) (to_key screenId) ws)
                            (sockets s) (outbox s) (storage_calls s)
                            (console s ++ [log_screen_connected (to_key screenId)])
                            (closeListeners s ++ [(ws, to_key screenId)]))
                else
                  (Normal tt,
                   mkServer (JsMap.set (screenConnections s) (to_key screenId) ws)
                            (sockets s) (outbox s) (storage_calls s)
                            (console s ++ [error_handling_message TypeError])
                            (closeListeners s))
              else (Normal tt, s)
          | Throw _ => (Normal tt, s)
          end
      end
  end.
Proof.
  unfold RoutesPublic.on_message_register_screen. unfold_js.
  destruct message as [data|]; [|reflexivity].
  destruct (get_prop data "type") as [type|e] eqn:Htype; [|reflexivity].
  destruct (get_prop data "screenId") as [screenId|e] eqn:Hid.
  - destruct (strict_eq_str type "REGISTER_SCREEN"); simpl; [|reflexivity].
    destruct (truthy screenId); [|reflexivity].
    destruct (printable screenId); reflexivity.
  - destruct data; simpl in *; congruence.
Qed.

(** What the key-based listeners of a socket leave behind, whether or not
    one of them raises. *)
Lemma run_close_listeners_frame listeners ws : forall s,
  JsMap.wf (screenConnections s) ->
  let s' := snd (RoutesPublic.run_close_listeners listeners ws s) in
  JsMap.wf (screenConnections s') /\
  (forall k c, JsMap.get (screenConnections s') k = Some c ->
               JsMap.get (screenConnections s) k = Some c) /\
  sockets s' = sockets s /\
  storage_calls s' = storage_calls s /\
  outbox s' = outbox s /\
  closeListeners s' = closeListeners s.
Proof.
  induction listeners as [|[owner k0] rest IH]; intros s Hwf; simpl.
  - repeat split; auto.
  - unfold_js. destruct (Nat.eqb owner ws) eqn:E; simpl.
    + assert (Hmono : forall k c,
                JsMap.get (JsMap.delete (screenConnections s) k0) k = Some c ->
                JsMap.get (screenConnections s) k = Some c).
      { intros k c G. key_cases k0 k.
        - rewrite JsMapFacts.get_delete_eq in G by assumption. discriminate.
        - now rewrite JsMapFacts.get_delete_ne in G. }
      destruct (key_printable k0); simpl.
      * set (s1 := mkServer (JsMap.delete (screenConnections s) k0) (sockets s) (outbox s)
                            (storage_calls s) (console s ++ [log_screen_disconnected k0])
                            (closeListeners s)).
        assert (Hwf1 : JsMap.wf (screenConnections s1)) by now apply JsMapFacts.delete_wf.
        destruct (IH s1 Hwf1) as (Hw & Hm & Hrest).
        split; [exact Hw|]. split; [|exact Hrest].
        intros k c G. apply Hm in G. now apply Hmono.
      * split; [now apply JsMapFacts.delete_wf|]. split; [exact Hmono|]. repeat split.
    + apply IH. exact Hwf.
Qed.

(** When the keys convert, every listener of the socket runs, and its key
    is out of the registry at the end. *)
Lemma run_close_listeners_deletes listeners ws : forall s,
  JsMap.wf (screenConnections s) ->
  (forall c k, In (c, k) listeners -> key_printable k = true) ->
  forall k, In (ws, k) listeners ->
    JsMap.get (screenConnections (snd (RoutesPublic.run_close_listeners listeners ws s))) k
    = None.
Proof.
  induction listeners as [|[owner k0] rest IH]; intros s Hwf Hpr k Hin; [destruct Hin|].
  assert (Hrest : forall c k', In (c, k') rest -> key_printable k' = true).
  { intros c k' H. apply (Hpr c k'). now right. }
  simpl. unfold_js. destruct (Nat.eqb owner ws) eqn:E; simpl.
  - rewrite (Hpr owner k0 (or_introl eq_refl)). simpl.
    set (s1 := mkServer (JsMap.delete (screenConnections s) k0) (sockets s) (outbox s)
                        (storage_calls s) (console s ++ [log_screen_disconnected k0])
                        (closeListeners s)).
    assert (Hwf1 : JsMap.wf (screenConnections s1)) by now apply JsMapFacts.delete_wf.
    destruct Hin as [[= _ <-]|Hin]; [|now apply IH].
    destruct (JsMap.get (screenConnections
                (snd (RoutesPublic.run_close_listeners rest ws s1))) k0) eqn:G;
      [|reflexivity].
    apply (run_close_listeners_frame rest ws s1 Hwf1) in G. simpl in G.
    rewrite JsMapFacts.get_delete_eq in G by assumption. discriminate.
  - apply Nat.eqb_neq in E. destruct Hin as [[= -> _]|Hin]; [contradiction|].
    now apply IH.
Qed.

Lemma run_close_listeners_keeps_listeners listeners ws : forall s,
  closeListeners (snd (RoutesPublic.run_close_listeners listeners ws s)) = closeListeners s.
Proof.
  induction listeners as [|[o k1] l IH]; intros s; simpl; [reflexivity|].
  unfold_js. destruct (Nat.eqb o ws); simpl; [|apply IH].
  destruct (key_printable k1); simpl; [|reflexivity].
  now rewrite IH.
Qed.

(** The close round of the second routes file: the scanning listener, then,
    unless it raised, the listeners added by [REGISTER_SCREEN]. *)
Lemma public_close_step s ws :
  RoutesPublic.step s (Close ws) =
  match first_held (screenConnections s) ws with
  | Some k0 =>
      if key_printable k0 then
        snd (RoutesPublic.run_close_listeners (closeListeners s) ws
               (unregistered k0 (transport ws CLOSED s)))
      else unregistered k0 (transport ws CLOSED s)
  | None =>
      snd (RoutesPublic.run_close_listeners (closeListeners s) ws (transport ws CLOSED s))
  end.
Proof.
  unfold RoutesPublic.step, exec, bind. rewrite on_close_spec, transport_registry.
  destruct (first_held (screenConnections s) ws) as [k0|]; [|reflexivity].
  destruct (key_printable k0); reflexivity.
Qed.

Lemma public_step_wf s e :
  JsMap.wf (screenConnections s) ->
  JsMap.wf (screenConnections (RoutesPublic.step s e)).
Proof.
  intros Hwf. destruct e as [ws|ws message db_ok|ws].
  - exact Hwf.
  - unfold RoutesPublic.step. rewrite on_message_registry.
    assert (H1 : JsMap.wf (screenConnections
                   (exec (RoutesPublic.on_message_register_screen ws message) s))).
    { unfold exec. rewrite register_screen_spec.
      split_cases; auto; now apply JsMapFacts.set_wf. }
    destruct (registration_of _) as [[k c]|]; [now apply JsMapFacts.set_wf | exact H1].
  - rewrite public_close_step.
    destruct (first_held (screenConnections s) ws) as [k|].
    + destruct (key_printable k).
      * apply run_close_listeners_frame. simpl. now apply JsMapFacts.delete_wf.
      * simpl. now apply JsMapFacts.delete_wf.
    + apply run_close_listeners_frame. exact Hwf.
Qed.

Lemma public_step_listeners s e ws k :
  In (ws, k) (closeListeners s) -> In (ws, k) (closeListeners (RoutesPublic.step s e)).
Proof.
  intros Hin. destruct e as [c|c message db_ok|c].
  - exact Hin.
  - unfold RoutesPublic.step.
    destruct (on_message_frame c message db_ok
                (exec (RoutesPublic.on_message_register_screen c message) s))
      as (_ & _ & _ & ->).
    unfold exec. rewrite register_screen_spec. split_cases; auto.
    apply in_or_app. now left.
  - rewrite public_close_step.
    destruct (first_held (screenConnections s) c) as [k0|].
    + destruct (key_printable k0); [|exact Hin].
      now rewrite run_close_listeners_keeps_listeners.
    + now rewrite run_close_listeners_keeps_listeners.
Qed.

(** Only keys that convert get a [close] listener. *)
Lemma public_step_listeners_printable s e :
  (forall c k, In (c, k) (closeListeners s) -> key_printable k = true) ->
  forall c k, In (c, k) (closeListeners (RoutesPublic.step s e)) -> key_printable k = true.
Proof.
  intros Hpr c k. destruct e as [ws|ws message db_ok|ws].
  - apply Hpr.
  - unfold RoutesPublic.step.
    destruct (on_message_frame ws message db_ok
                (exec (RoutesPublic.on_message_register_screen ws message) s))
      as (_ & _ & _ & ->).
    unfold exec. rewrite register_screen_spec.
    destruct message as [data|]; [|apply Hpr].
    destruct (get_prop data "type") as [type|]; [|apply Hpr].
    destruct (get_prop data "screenId") as [screenId|]; [|apply Hpr].
    destruct (strict_eq_str type "REGISTER_SCREEN" && truthy screenId); [|apply Hpr].
    destruct (printable screenId) eqn:P; [|apply Hpr].
    simpl. intros Hin. apply in_app_or in Hin. destruct Hin as [Hin|[[= _ <-]|[]]].
    + eapply Hpr; eauto.
    + now rewrite key_printable_to_key.
  - rewrite public_close_step. intros Hin.
    destruct (first_held (screenConnections s) ws) as [k0|].
    + destruct (key_printable k0).
      * rewrite run_close_listeners_keeps_listeners in Hin. eapply Hpr; eauto.
      * eapply Hpr; eauto.
    + rewrite run_close_listeners_keeps_listeners in Hin. eapply Hpr; eauto.
Qed.

Lemma public_run_wf trace : forall s,
  JsMap.wf (screenConnections s) ->
  JsMap.wf (screenConnections (RoutesPublic.run trace s)).
Proof.
  induction trace as [|e trace IH]; intros s H; simpl; [exact H|].
  apply IH. now apply public_step_wf.
Qed.

Lemma public_run_listeners trace : forall s ws k,
  In (ws, k) (closeListeners s) -> In (ws, k) (closeListeners (RoutesPublic.run trace s)).
Proof.
  induction trace as [|e trace IH]; intros s ws k H; simpl; [exact H|].
  apply IH. now apply public_step_listeners.
Qed.

Lemma public_run_listeners_printable trace : forall s,
  (forall c k, In (c, k) (closeListeners s) -> key_printable k = true) ->
  forall c k, In (c, k) (closeListeners (RoutesPublic.run trace s)) -> key_printable k = true.
Proof.
  induction trace as [|e trace IH]; intros s H; simpl; [exact H|].
  apply IH. now apply public_step_listeners_printable.
Qed.

Lemma public_run_app trace1 trace2 s :
  RoutesPublic.run (trace1 ++ trace2) s = RoutesPublic.run trace2 (RoutesPublic.run trace1 s).
Proof. apply fold_left_app. Qed.

(** X4: the second routes file keeps the registry a map as well: along
    every run no key occurs twice, so two entries with one key hold the same
    socket; and a [REGISTER_SCREEN] frame with a truthy [screenId] makes that
    key answer with the sending socket, without any call on the storage. *)
Theorem public_registry_invariant trace ws data screenId db_ok :
  let s := RoutesPublic.run trace initial in
  JsMap.wf (screenConnections s) /\
  (forall k c1 c2, In (k, c1) (screenConnections s) ->
                   In (k, c2) (screenConnections s) -> c1 = c2) /\
  (get_prop data "type" = Normal (VStr "REGISTER_SCREEN") ->
   get_prop data "screenId" = Normal screenId ->
   truthy screenId = true ->
   JsMap.get (screenConnections (RoutesPublic.step s (Message ws (Some data) db_ok)))
             (to_key screenId) = Some ws /\
   storage_calls (RoutesPublic.step s (Message ws (Some data) db_ok)) = storage_calls s).
Proof.
  intros s. assert (Hwf : JsMap.wf (screenConnections s)) by apply public_run_wf, initial_wf.
  split; [exact Hwf|]. split.
  - intros k c1 c2 H1 H2. apply (JsMapFacts.In_get _ _ _ Hwf) in H1, H2. congruence.
  - intros Htype Hid Htruthy. unfold RoutesPublic.step.
    assert (Hnone : registration_of (Message ws (Some data) db_ok) = None).
    { simpl. now rewrite Htype. }
    rewrite on_message_registry, on_message_storage, Hnone, app_nil_r.
    unfold exec. rewrite register_screen_spec, Htype, Hid, Htruthy. simpl.
    destruct (printable screenId); simpl;
      (split; [apply JsMapFacts.get_set_eq | reflexivity]).
Qed.

Lemma public_registry_invariant_witness :
  JsMap.get (screenConnections
               (RoutesPublic.run [Message 4 (Some (register_screen (VStr "hall"))) true] initial))
            (KStr "hall") = Some 4.
Proof.
  destruct (public_registry_invariant [] 4 (register_screen (VStr "hall")) (VStr "hall") true)
    as (_ & _ & H).
  destruct (H eq_refl eq_refl eq_refl) as [Hget _]. exact Hget.
Defined.

(** X5: in the second routes file, once a socket has announced with
    [REGISTER_SCREEN] a key that converts to a string, so that its [close]
    listener was added, the close of the socket leaves that key out of the
    registry, whatever happened in between and whichever socket holds the key
    by then, provided the scanning listener, which runs first, does not
    raise: the first entry the socket holds at its close, if it holds one,
    has a key that converts. *)
Theorem public_close_deletes_announced_keys
    before between ws data screenId db_ok :
  get_prop data "type" = Normal (VStr "REGISTER_SCREEN") ->
  get_prop data "screenId" = Normal screenId ->
  truthy screenId = true ->
  printable screenId = true ->
  (forall k0,
     first_held (screenConnections
                   (RoutesPublic.run (before ++ Message ws (Some data) db_ok :: between)
                                     initial)) ws = Some k0 ->
     key_printable k0 = true) ->
  JsMap.get (screenConnections
               (RoutesPublic.run (before ++ Message ws (Some data) db_ok :: between ++ [Close ws])
                                 initial))
            (to_key screenId) = None.
Proof.
  intros Htype Hid Htruthy Hprint Hscan.
  change (before ++ Message ws (Some data) db_ok :: between ++ [Close ws])
    with (before ++ (Message ws (Some data) db_ok :: between) ++ [Close ws]).
  rewrite app_assoc, public_run_app.
  set (s2 := RoutesPublic.run (before ++ Message ws (Some data) db_ok :: between) initial)
    in *.
  assert (Hwf2 : JsMap.wf (screenConnections s2)) by apply public_run_wf, initial_wf.
  assert (Hpr2 : forall c k, In (c, k) (closeListeners s2) -> key_printable k = true).
  { apply public_run_listeners_printable. intros c k []. }
  assert (Hann : In (ws, to_key screenId) (closeListeners s2)).
  { unfold s2. rewrite public_run_app. cbn [RoutesPublic.run fold_left].
    apply public_run_listeners. unfold RoutesPublic.step.
    destruct (on_message_frame ws (Some data) db_ok
                (exec (RoutesPublic.on_message_register_screen ws (Some data))
                      (RoutesPublic.run before initial)))
      as (_ & _ & _ & ->).
    unfold exec. rewrite register_screen_spec, Htype, Hid, Htruthy, Hprint. simpl.
    apply in_or_app. right. now left. }
  cbn [RoutesPublic.run fold_left]. rewrite public_close_step.
  destruct (first_held (screenConnections s2) ws) as [k0|] eqn:Hfirst.
  - rewrite (Hscan k0 eq_refl).
    apply run_close_listeners_deletes; auto. simpl. now apply JsMapFacts.delete_wf.
  - apply run_close_listeners_deletes; auto.
Qed.

Lemma public_close_deletes_announced_keys_witness :
  JsMap.get (screenConnections
               (RoutesPublic.run
                  ([Connection 1] ++ Message 1 (Some (register_screen (VStr "k"))) true
                     :: [Message 2 (Some (player_register (VStr "k"))) true] ++ [Close 1])
                  initial))
            (KStr "k") = None.
Proof.
  apply (public_close_deletes_announced_keys [Connection 1]
           [Message 2 (Some (player_register (VStr "k"))) true] 1
           (register_screen (VStr "k")) (VStr "k") true eq_refl eq_refl eq_refl eq_refl).
  intros k0 H. vm_compute in H. discriminate H.
Defined.

(** ** More on the first routes file *)

Lemma held_split (l1 l2 : JsMap.t) k ws c :
  List.length (filter (fun x => Nat.eqb x c) (JsMap.values (l1 ++ (k, ws) :: l2))) =
  List.length (filter (fun x => Nat.eqb x c) (JsMap.values (l1 ++ l2))) +
  (if Nat.eqb ws c then 1 else 0).
Proof.
  unfold JsMap.values. rewrite !map_app, !filter_app, !length_app. simpl.
  destruct (Nat.eqb ws c); simpl; lia.
Qed.

(** X6: in the first routes file a close takes exactly one entry away
    from the closing socket when it holds any, and none from any other
    socket; so a socket that was registered under one key only is gone from
    the registry after its close. *)
Theorem close_releases_one_entry trace ws :
  let s := Routes.run trace initial in
  let s' := Routes.step s (Close ws) in
  held s' ws = pred (held s ws) /\
  (forall c, c <> ws -> held s' c = held s c) /\
  (held s ws <= 1 -> ~ In ws (JsMap.values (screenConnections s'))).
Proof.
  intros s s'.
  assert (Hwf : JsMap.wf (screenConnections s)) by apply run_wf, initial_wf.
  assert (Hstep : s' = Routes.step s (Close ws)) by reflexivity.
  rewrite close_step_spec in Hstep.
  assert (Hzero : forall m, List.length (filter (fun c => Nat.eqb c ws) (JsMap.values m)) = 0 ->
                            ~ In ws (JsMap.values m)).
  { intros m H Hin.
    assert (Hf : In ws (filter (fun c => Nat.eqb c ws) (JsMap.values m)))
      by (apply filter_In; split; [exact Hin | apply Nat.eqb_refl]).
    destruct (filter (fun c => Nat.eqb c ws) (JsMap.values m)); [destruct Hf | discriminate]. }
  destruct (first_held (screenConnections s) ws) as [k|] eqn:Hfirst.
  - destruct (first_held_Some _ _ _ Hfirst) as (l1 & l2 & Hm & Hnot).
    assert (Hreg : screenConnections s' = l1 ++ l2).
    { rewrite Hstep. simpl. rewrite Hm. apply JsMapFacts.delete_split. now rewrite <- Hm. }
    unfold held. rewrite Hreg, Hm.
    split; [|split].
    + rewrite held_split, Nat.eqb_refl. lia.
    + intros c Hc. rewrite held_split. apply Nat.eqb_neq in Hc.
      rewrite Nat.eqb_sym in Hc. rewrite Hc. lia.
    + rewrite held_split, Nat.eqb_refl. intros H. apply Hzero. lia.
  - assert (Hreg : screenConnections s' = screenConnections s) by now rewrite Hstep.
    unfold held. rewrite Hreg. apply first_held_None in Hfirst.
    assert (H0 : List.length (filter (fun c => Nat.eqb c ws)
                                (JsMap.values (screenConnections s))) = 0).
    { destruct (filter (fun c => Nat.eqb c ws) (JsMap.values (screenConnections s)))
        as [|c l] eqn:E; [reflexivity|].
      assert (Hin : In c (c :: l)) by now left.
      rewrite <- E in Hin. apply filter_In in Hin. destruct Hin as [Hin Hc].
      apply Nat.eqb_eq in Hc. subst c. contradiction. }
    rewrite H0. repeat split; auto.
Qed.

Lemma close_releases_one_entry_witness :
  let trace := [Connection 1; Message 1 (Some (player_register (VStr "A"))) true;
                Connection 2; Message 2 (Some (player_register (VStr "B"))) true] in
  ~ In 1 (JsMap.values (screenConnections (Routes.run (trace ++ [Close 1]) initial))).
Proof.
  intros trace. rewrite run_app.
  destruct (close_releases_one_entry trace 1) as (_ & _ & H).
  apply H. unfold held. simpl. lia.
Defined.

Lemma app_tail_split {A} (l pre post : list A) (x c : A) :
  l ++ [x] = pre ++ c :: post ->
  (post = [] /\ l = pre /\ x = c) \/
  (exists post', post = post' ++ [x] /\ l = pre ++ c :: post').
Proof.
  intros H. destruct post as [|p post] using rev_ind.
  - left. apply app_inj_tail in H. destruct H as [-> ->]. auto.
  - right. clear IHpost. exists post.
    change (pre ++ c :: post ++ [p]) with (pre ++ (c :: post) ++ [p]) in H.
    rewrite app_assoc in H. apply app_inj_tail in H. destruct H as [-> ->]. auto.
Qed.

Lemma step_status_calls s e :
  JsMap.wf (screenConnections s) ->
  status_calls_consistent s -> status_calls_consistent (Routes.step s e).
Proof.
  intros Hwf [Hkeys Hoff]. unfold status_calls_consistent, marked in *.
  destruct e as [ws|ws message db_ok|ws].
  - simpl. split; assumption.
  - unfold Routes.step. rewrite on_message_registry, on_message_storage.
    destruct (registration_of (Message ws message db_ok)) as [[k c]|].
    + split.
      * intros k' Hin. rewrite JsMapFacts.keys_set in Hin. apply in_or_app.
        destruct (JsMap.get (screenConnections s) k).
        -- left. auto.
        -- apply in_app_or in Hin. destruct Hin as [Hin|[<-|[]]]; [left; auto | right; now left].
      * intros pre k' post H. apply app_tail_split in H.
        destruct H as [(_ & _ & H)|(post' & _ & H)]; [discriminate|].
        eapply Hoff; eauto.
    + rewrite app_nil_r. split; assumption.
  - rewrite close_step_spec.
    destruct (first_held (screenConnections s) ws) as [k|] eqn:Hfirst; simpl.
    + split.
      * intros k' Hin. apply JsMapFacts.keys_delete_incl in Hin.
        apply in_or_app. left. auto.
      * intros pre k' post H. apply app_tail_split in H.
        destruct H as [(_ & <- & [= <-])|(post' & _ & H)]; [|eapply Hoff; eauto].
        apply Hkeys. destruct (first_held_Some _ _ _ Hfirst) as (l1 & l2 & -> & _).
        unfold JsMap.keys. rewrite map_app. apply in_or_app. right. now left.
    + split; assumption.
Qed.

(** X7: along every run of the first routes file, every key standing in
    the registry has been reported to the storage as online, and every call
    that reports a key offline comes after a call that reported the same key
    online. *)
Theorem status_calls_follow_registrations trace :
  status_calls_consistent (Routes.run trace initial).
Proof.
  assert (H : forall s, JsMap.wf (screenConnections s) -> status_calls_consistent s ->
                        status_calls_consistent (Routes.run trace s)).
  { induction trace as [|e trace IH]; intros s Hwf Hs; simpl; [exact Hs|].
    apply IH; [now apply step_wf | now apply step_status_calls]. }
  apply H; [apply initial_wf|]. split.
  - intros k [].
  - intros pre k post Heq. destruct pre; discriminate.
Qed.

Lemma status_calls_follow_registrations_witness :
  let trace := [Connection 1; Message 1 (Some (player_register (VStr "A"))) true; Close 1] in
  In (updateScreenOnlineStatus_call (KStr "A") true)
     [updateScreenOnlineStatus_call (KStr "A") true].
Proof.
  intros trace.
  destruct (status_calls_follow_registrations trace) as [_ H].
  apply (H [updateScreenOnlineStatus_call (KStr "A") true] (KStr "A") []).
  reflexivity.
Defined.

(** X8: whatever the frame, the [message] listeners of both routes files
    let no exception out, hand nothing to any socket and change no
    [readyState]: a frame can only touch the registry, the storage, the
    console and the listener table. *)
Theorem message_listeners_are_contained s ws message db_ok :
  outcome (on_message ws message db_ok) s = Normal tt /\
  outcome (RoutesPublic.on_message_register_screen ws message) s = Normal tt /\
  outbox (Routes.step s (Message ws message db_ok)) = outbox s /\
  sockets (Routes.step s (Message ws message db_ok)) = sockets s /\
  outbox (RoutesPublic.step s (Message ws message db_ok)) = outbox s /\
  sockets (RoutesPublic.step s (Message ws message db_ok)) = sockets s.
Proof.
  destruct (on_message_frame ws message db_ok s) as (Hout & Hso & Hob & _).
  destruct (on_message_frame ws message db_ok
              (exec (RoutesPublic.on_message_register_screen ws message) s))
    as (_ & Hso' & Hob' & _).
  assert (H : outcome (RoutesPublic.on_message_register_screen ws message) s = Normal tt /\
              outbox (exec (RoutesPublic.on_message_register_screen ws message) s) = outbox s /\
              sockets (exec (RoutesPublic.on_message_register_screen ws message) s) = sockets s).
  { unfold outcome, exec. rewrite register_screen_spec. split_cases; repeat split. }
  destruct H as (Hout1 & Hob1 & Hso1).
  simpl. rewrite Hso', Hob', Hso1, Hob1. repeat split; assumption.
Qed.

(** X9: the registry is written before the storage is awaited.  When the
    storage rejects the call that reports a registering player online, the
    socket is registered all the same and the call has been made; the error
    is logged in place of the line that tells of the registration.  When
    the storage accepts the call, that line is written if the key converts
    to a string, and the [TypeError] of the conversion is logged if it does
    not; the registration stands in either case. *)
Theorem registration_survives_storage_rejection ws message db_ok k s :
  registration_of (Message ws message db_ok) = Some (k, ws) ->
  let s' := Routes.step s (Message ws message db_ok) in
  JsMap.get (screenConnections s') k = Some ws /\
  storage_calls s' = storage_calls s ++ [updateScreenOnlineStatus_call k true] /\
  console s' = console s ++ [if db_ok
                             then if key_printable k then log_player_registered k
                                  else error_handling_message TypeError
                             else error_handling_message StorageError].
Proof.
  intros Hreg s'. subst s'. unfold Routes.step.
  rewrite on_message_registry, on_message_storage, Hreg.
  split; [apply JsMapFacts.get_set_eq|]. split; [reflexivity|].
  revert Hreg. unfold on_message, registration_of. unfold_js.
  destruct message as [data|]; [|discriminate].
  destruct (get_prop data "type") as [type|]; [|discriminate]. simpl.
  destruct (strict_eq_str type "PLAYER_REGISTER"); [|discriminate].
  destruct (get_prop data "payload") as [payload|]; [|discriminate]. simpl.
  destruct (get_prop payload "deviceKey") as [deviceKey|]; [|discriminate]. simpl.
  destruct (truthy deviceKey); [|discriminate].
  intros [= <-]. rewrite key_printable_to_key.
  destruct db_ok; [|reflexivity]. destruct (printable deviceKey); reflexivity.
Qed.

Lemma registration_survives_storage_rejection_witness :
  let s' := Routes.step initial (Message 5 (Some (player_register (VStr "A"))) false) in
  JsMap.get (screenConnections s') (KStr "A") = Some 5 /\
  console s' = [error_handling_message StorageError].
Proof.
  intros s'.
  destruct (registration_survives_storage_rejection 5 (Some (player_register (VStr "A")))
              false (KStr "A") initial eq_refl) as (Hget & _ & Hcon).
  split; [exact Hget | exact Hcon].
Defined.

(** ** More on the broadcast route *)

Lemma forEach_normal throws message screenIds : forall s,
  fst (forEach_screenId throws message screenIds s) = Normal tt ->
  forEach_screenId throws message screenIds s =
  (Normal tt, with_frames s (frames_for s message screenIds)).
Proof.
  induction screenIds as [|screenId rest IH]; intros s.
  - intros _. simpl. now rewrite with_frames_nil.
  - rewrite forEach_cons, frames_for_cons.
    destruct (deliverable s screenId) as [screen|].
    + destruct (throws screen); [discriminate|].
      intros H. rewrite (IH _ H).
      now rewrite with_frames_app, frames_for_with_frames.
    + intros H. now rewrite (IH _ H).
Qed.

Lemma forEach_app throws message pre rest : forall s,
  (forall screenId ws, In screenId pre -> deliverable s screenId = Some ws ->
                       throws ws = false) ->
  forEach_screenId throws message (pre ++ rest) s =
  forEach_screenId throws message rest (with_frames s (frames_for s message pre)).
Proof.
  induction pre as [|screenId pre IH]; intros s Hok.
  - simpl. now rewrite with_frames_nil.
  - rewrite <- app_comm_cons, forEach_cons, frames_for_cons.
    destruct (deliverable s screenId) as [screen|] eqn:Hd.
    + rewrite (Hok screenId screen (or_introl eq_refl) Hd).
      rewrite IH.
      * now rewrite with_frames_app, frames_for_with_frames.
      * intros id ws Hin. rewrite deliverable_with_frames. intros H.
        apply (Hok id ws); [now right | exact H].
    + apply IH. intros id ws Hin. apply Hok. now right.
Qed.

(** The route once it has reached the loop. *)
Lemma post_broadcasts_loop JSON_stringify req s screenIds playlist :
  has_organization req = true ->
  validated_screenIds req = Some screenIds ->
  playlist_found req = Some playlist ->
  post_broadcasts JSON_stringify req s =
  match forEach_screenId (send_throws req)
          (JSON_stringify (load_playlist playlist (broadcast_id req))) screenIds
          (mkServer (screenConnections s) (sockets s) (outbox s)
                    (storage_calls s ++ [createBroadcast_call screenIds])
                    (console s) (closeListeners s)) with
  | (Normal _, s2) =>
      (Normal status_200,
       mkServer (screenConnections s2) (sockets s2) (outbox s2)
                ((storage_calls s2 ++ [updateBroadcast_call (broadcast_id req)])
                   ++ [createAuditLog_call (broadcast_id req)])
                (console s2) (closeListeners s2))
  | (Throw e, s2) =>
      (Normal status_500,
       mkServer (screenConnections s2) (sockets s2) (outbox s2) (storage_calls s2)
                (console s2 ++ [error_creating_broadcast e]) (closeListeners s2))
  end.
Proof.
  intros Horg Hv Hp. unfold post_broadcasts. rewrite Horg, Hv, Hp. simpl. unfold_js.
  destruct (forEach_screenId _ _ _ _) as [[[]|e] s2]; reflexivity.
Qed.

(** The route with resolving promises is the route as modelled first. *)
Lemma post_broadcasts_awaiting_resolving JSON_stringify req s :
  post_broadcasts_awaiting JSON_stringify (fun _ => true) req s =
  post_broadcasts JSON_stringify req s.
Proof.
  unfold post_broadcasts_awaiting, post_broadcasts. unfold_js.
  destruct (has_organization req); [|reflexivity]. simpl.
  destruct (validated_screenIds req) as [screenIds|]; [|reflexivity].
  destruct (playlist_found req) as [playlist|]; [|reflexivity].
  destruct (forEach_screenId _ _ _ _) as [[[]|e] s2]; reflexivity.
Qed.

(** The awaiting route once it has reached the loop. *)
Lemma post_broadcasts_awaiting_loop JSON_stringify resolves req s screenIds playlist :
  resolves getUser_promise = true ->
  has_organization req = true ->
  validated_screenIds req = Some screenIds ->
  resolves createBroadcast_promise = true ->
  resolves getPlaylistWithItems_promise = true ->
  playlist_found req = Some playlist ->
  post_broadcasts_awaiting JSON_stringify resolves req s =
  match forEach_screenId (send_throws req)
          (JSON_stringify (load_playlist playlist (broadcast_id req))) screenIds
          (mkServer (screenConnections s) (sockets s) (outbox s)
                    (storage_calls s ++ [createBroadcast_call screenIds])
                    (console s) (closeListeners s)) with
  | (Normal _, s2) =>
      if resolves updateBroadcast_promise then
        if resolves createAuditLog_promise then
          (Normal status_200,
           mkServer (screenConnections s2) (sockets s2) (outbox s2)
                    ((storage_calls s2 ++ [updateBroadcast_call (broadcast_id req)])
                       ++ [createAuditLog_call (broadcast_id req)])
                    (console s2) (closeListeners s2))
        else
          (Normal status_500,
           mkServer (screenConnections s2) (sockets s2) (outbox s2)
                    ((storage_calls s2 ++ [updateBroadcast_call (broadcast_id req)])
                       ++ [createAuditLog_call (broadcast_id req)])
                    (console s2 ++ [error_creating_broadcast StorageError])
                    (closeListeners s2))
      else
        (Normal status_500,
         mkServer (screenConnections s2) (sockets s2) (outbox s2)
                  (storage_calls s2 ++ [updateBroadcast_call (broadcast_id req)])
                  (console s2 ++ [error_creating_broadcast StorageError])
                  (closeListeners s2))
  | (Throw e, s2) =>
      (Normal status_500,
       mkServer (screenConnections s2) (sockets s2) (outbox s2) (storage_calls s2)
                (console s2 ++ [error_creating_broadcast e]) (closeListeners s2))
  end.
Proof.
  intros Hu Horg Hv Hc Hg Hp. unfold post_broadcasts_awaiting.
  rewrite Hu, Horg, Hv, Hc, Hg, Hp. simpl. unfold_js.
  destruct (forEach_screenId _ _ _ _) as [[[]|e] s2]; [|reflexivity].
  destruct (resolves updateBroadcast_promise); [|reflexivity].
  destruct (resolves createAuditLog_promise); reflexivity.
Qed.

(** The awaiting route when it leaves before the loop: it answers 400, 404
    or 500, and the only call it can have made is [createBroadcast]. *)
Lemma post_broadcasts_awaiting_early JSON_stringify resolves req s :
  resolves getUser_promise && has_organization req
    && resolves createBroadcast_promise && resolves getPlaylistWithItems_promise = false
  \/ validated_screenIds req = None \/ playlist_found req = None ->
  fst (post_broadcasts_awaiting JSON_stringify resolves req s) <> Normal status_200 /\
  forall c, In c (calls_since s (snd (post_broadcasts_awaiting JSON_stringify resolves req s))) ->
            exists screenIds, c = createBroadcast_call screenIds.
Proof.
  intros H. unfold calls_since, post_broadcasts_awaiting. unfold_js.
  destruct (resolves getUser_promise);
    [|simpl; rewrite skipn_all; split; [discriminate | intros c []]].
  destruct (has_organization req);
    [|simpl; rewrite skipn_all; split; [discriminate | intros c []]].
  simpl.
  destruct (validated_screenIds req) as [screenIds|];
    [|simpl; rewrite skipn_all; split; [discriminate | intros c []]].
  assert (Hone : forall c, In c [createBroadcast_call screenIds] ->
                           exists ids, c = createBroadcast_call ids).
  { intros c [<-|[]]. now exists screenIds. }
  destruct (resolves createBroadcast_promise);
    [|simpl; rewrite skipn_app_exact; split; [discriminate | exact Hone]].
  destruct (resolves getPlaylistWithItems_promise);
    [|simpl; rewrite skipn_app_exact; split; [discriminate | exact Hone]].
  destruct (playlist_found req) as [playlist|];
    [|simpl; rewrite skipn_app_exact; split; [discriminate | exact Hone]].
  simpl in H. destruct H as [H|[H|H]]; discriminate H.
Qed.

(** X10: with storage promises that may reject, an answer of 200 means the
    loop ran to its end and both calls after it were made and fulfilled.
    Once the broadcast has been marked as broadcasting, every element of the
    list that was mapped to an open socket has had the frame handed to its
    socket.  The answer is 200 exactly when the broadcast was marked and the
    promises of [updateBroadcast] and [createAuditLog] were both fulfilled,
    so a rejection after the loop gives 500 for a broadcast that was handed
    out and marked; the audit entry is asked for exactly when the broadcast
    was marked and the promise of [updateBroadcast] fulfilled; and an answer
    of 200 leaves the console as it was. *)
Theorem broadcast_200_means_all_handed JSON_stringify resolves req s :
  let route := post_broadcasts_awaiting JSON_stringify resolves req in
  let is_marked :=
    In (updateBroadcast_call (broadcast_id req)) (calls_since s (snd (route s))) in
  let is_audited :=
    In (createAuditLog_call (broadcast_id req)) (calls_since s (snd (route s))) in
  (is_marked ->
   exists screenIds playlist,
     validated_screenIds req = Some screenIds /\
     playlist_found req = Some playlist /\
     sent_by route s =
       frames_for s (JSON_stringify (load_playlist playlist (broadcast_id req))) screenIds) /\
  (fst (route s) = Normal status_200 <->
   is_marked /\ resolves updateBroadcast_promise = true
             /\ resolves createAuditLog_promise = true) /\
  (is_audited <-> is_marked /\ resolves updateBroadcast_promise = true) /\
  (fst (route s) = Normal status_200 -> console (snd (route s)) = console s).
Proof.
  intros route is_marked is_audited. subst route is_marked is_audited.
  destruct (resolves getUser_promise && has_organization req
              && resolves createBroadcast_promise
              && resolves getPlaylistWithItems_promise) eqn:Hreach.
  2: { destruct (post_broadcasts_awaiting_early JSON_stringify resolves req s
                   (or_introl Hreach)) as [Hne Hcalls].
       split; [intros H; apply Hcalls in H; destruct H as [ids H]; discriminate H|].
       split; [split; [intros H; contradiction
                      | intros (H & _); apply Hcalls in H; destruct H as [ids H];
                        discriminate H]|].
       split; [split; [intros H | intros (H & _)];
               apply Hcalls in H; destruct H as [ids H]; discriminate H|].
       intros H; contradiction. }
  destruct (validated_screenIds req) as [screenIds|] eqn:Hv.
  2: { destruct (post_broadcasts_awaiting_early JSON_stringify resolves req s
                   (or_intror (or_introl Hv))) as [Hne Hcalls].
       split; [intros H; apply Hcalls in H; destruct H as [ids H]; discriminate H|].
       split; [split; [intros H; contradiction
                      | intros (H & _); apply Hcalls in H; destruct H as [ids H];
                        discriminate H]|].
       split; [split; [intros H | intros (H & _)];
               apply Hcalls in H; destruct H as [ids H]; discriminate H|].
       intros H; contradiction. }
  destruct (playlist_found req) as [playlist|] eqn:Hp.
  2: { destruct (post_broadcasts_awaiting_early JSON_stringify resolves req s
                   (or_intror (or_intror Hp))) as [Hne Hcalls].
       split; [intros H; apply Hcalls in H; destruct H as [ids H]; discriminate H|].
       split; [split; [intros H; contradiction
                      | intros (H & _); apply Hcalls in H; destruct H as [ids H];
                        discriminate H]|].
       split; [split; [intros H | intros (H & _)];
               apply Hcalls in H; destruct H as [ids H]; discriminate H|].
       intros H; contradiction. }
  apply andb_prop in Hreach. destruct Hreach as [Hreach Hg].
  apply andb_prop in Hreach. destruct Hreach as [Hreach Hc].
  apply andb_prop in Hreach. destruct Hreach as [Hu Horg].
  unfold calls_since, sent_by.
  rewrite (post_broadcasts_awaiting_loop _ _ _ _ _ _ Hu Horg Hv Hc Hg Hp).
  set (message := JSON_stringify (load_playlist playlist (broadcast_id req))).
  set (s1 := mkServer (screenConnections s) (sockets s) (outbox s)
                      (storage_calls s ++ [createBroadcast_call screenIds])
                      (console s) (closeListeners s)).
  destruct (forEach_screenId (send_throws req) message screenIds s1) as [[[]|e] s2] eqn:Hloop.
  - pose proof (forEach_normal (send_throws req) message screenIds s1) as Hn.
    rewrite Hloop in Hn. specialize (Hn eq_refl). injection Hn as ->.
    destruct (resolves updateBroadcast_promise), (resolves createAuditLog_promise); simpl;
      rewrite <- ?app_assoc, ?skipn_app_exact; simpl.
    + split; [intros _; exists screenIds, playlist; repeat split|].
      split; [split; [intros _; split; [right; now left | split; reflexivity]
                     | reflexivity]|].
      split; [split; [intros _; split; [right; now left | reflexivity]
                     | intros _; right; right; now left]|].
      reflexivity.
    + split; [intros _; exists screenIds, playlist; repeat split|].
      split; [split; [intros H; discriminate H | intros (_ & _ & H); discriminate H]|].
      split; [split; [intros _; split; [right; now left | reflexivity]
                     | intros _; right; right; now left]|].
      intros H; discriminate H.
    + split; [intros _; exists screenIds, playlist; repeat split|].
      split; [split; [intros H; discriminate H | intros (_ & H & _); discriminate H]|].
      split; [split; [intros [H|[H|[]]]; discriminate H | intros (_ & H); discriminate H]|].
      intros H; discriminate H.
    + split; [intros _; exists screenIds, playlist; repeat split|].
      split; [split; [intros H; discriminate H | intros (_ & H & _); discriminate H]|].
      split; [split; [intros [H|[H|[]]]; discriminate H | intros (_ & H); discriminate H]|].
      intros H; discriminate H.
  - destruct (forEach_prefix (send_throws req) message screenIds s1)
      as (sent & later & Hs & _).
    rewrite Hloop in Hs. simpl in Hs. subst s2. simpl.
    rewrite !skipn_app_exact.
    split; [intros [H|[]]; discriminate H|].
    split; [split; [intros H; discriminate H | intros ([H|[]] & _); discriminate H]|].
    split; [split; [intros [H|[]]; discriminate H | intros ([H|[]] & _); discriminate H]|].
    intros H; discriminate H.
Qed.

Lemma broadcast_200_means_all_handed_witness :
  let s := Routes.run [Connection 1;
                       Message 1 (Some (player_register (VStr "A"))) true] initial in
  let req := mkRequest true (Some ["A"; "Z"])
                       (Some (mkPlaylistRow 9 [("name", VStr "lobby")])) "b"
                       (fun _ => false) in
  sent_by (post_broadcasts_awaiting (fun _ => "frame") (fun _ => true) req) s
  = [(1, "frame")].
Proof.
  intros s req.
  destruct (broadcast_200_means_all_handed (fun _ => "frame") (fun _ => true) req s)
    as (Hsent & H200 & _).
  destruct H200 as [H200 _]. destruct (H200 eq_refl) as (Hmarked & _).
  destruct (Hsent Hmarked) as (screenIds & playlist & Hv & Hp & Heq).
  injection Hv as <-. rewrite Heq. reflexivity.
Defined.

(** A rejection of [createAuditLog] gives 500 although every target was
    handed the frame and the broadcast was marked as broadcasting. *)
Example audit_rejection_answers_500 :
  let s := Routes.run [Connection 1;
                       Message 1 (Some (player_register (VStr "A"))) true] initial in
  let req := mkRequest true (Some ["A"])
                       (Some (mkPlaylistRow 9 [("name", VStr "lobby")])) "b"
                       (fun _ => false) in
  let route := post_broadcasts_awaiting (fun _ => "frame")
                 (fun p => match p with createAuditLog_promise => false | _ => true end)
                 req in
  fst (route s) = Normal status_500 /\
  sent_by route s = [(1, "frame")] /\
  In (updateBroadcast_call "b") (calls_since s (snd (route s))).
Proof. vm_compute. repeat split. right. now left. Qed.

(** X11: when the [send] of a listed target raises, the targets before it
    in the list keep the frames they were handed, the targets after it get
    none, the answer is 500 with the error on the console, and the stored
    broadcast is left as it was created: neither marked as broadcasting nor
    audited. *)
Theorem broadcast_abort_is_partial
    JSON_stringify req s earlier screenId later playlist ws :
  has_organization req = true ->
  validated_screenIds req = Some (earlier ++ screenId :: later) ->
  playlist_found req = Some playlist ->
  (forall id c, In id earlier -> deliverable s id = Some c -> send_throws req c = false) ->
  deliverable s screenId = Some ws ->
  send_throws req ws = true ->
  let s' := snd (post_broadcasts JSON_stringify req s) in
  fst (post_broadcasts JSON_stringify req s) = Normal status_500 /\
  sent_by (post_broadcasts JSON_stringify req) s =
    frames_for s (JSON_stringify (load_playlist playlist (broadcast_id req))) earlier /\
  calls_since s s' = [createBroadcast_call (earlier ++ screenId :: later)] /\
  console s' = console s ++ [error_creating_broadcast SendError].
Proof.
  intros Horg Hv Hp Hok Hd Ht s'. subst s'. unfold sent_by, calls_since.
  rewrite (post_broadcasts_loop _ _ _ _ _ Horg Hv Hp).
  set (message := JSON_stringify (load_playlist playlist (broadcast_id req))).
  set (s1 := mkServer (screenConnections s) (sockets s) (outbox s)
                      (storage_calls s ++ [createBroadcast_call (earlier ++ screenId :: later)])
                      (console s) (closeListeners s)).
  rewrite (forEach_app (send_throws req) message earlier (screenId :: later) s1 Hok).
  rewrite (forEach_abort (send_throws req) message screenId later
             (with_frames s1 (frames_for s1 message earlier)) ws Hd Ht).
  simpl. rewrite !skipn_app_exact. repeat split.
Qed.

Lemma broadcast_abort_is_partial_witness :
  let s := Routes.run [Connection 1; Connection 2; Connection 3;
                       Message 1 (Some (player_register (VStr "A"))) true;
                       Message 2 (Some (player_register (VStr "B"))) true;
                       Message 3 (Some (player_register (VStr "C"))) true] initial in
  let req := mkRequest true (Some (["A"] ++ "B" :: ["C"])) (Some (mkPlaylistRow 9 [])) "b"
                       (fun c => Nat.eqb c 2) in
  sent_by (post_broadcasts (fun _ => "frame") req) s = [(1, "frame")] /\
  fst (post_broadcasts (fun _ => "frame") req s) = Normal status_500.
Proof.
  intros s req.
  destruct (broadcast_abort_is_partial (fun _ => "frame") req s ["A"] "B" ["C"] (mkPlaylistRow 9 []) 2)
    as (Hfst & Hsent & _); try reflexivity.
  - intros id c [<-|[]] H. injection H as <-. reflexivity.
  - split; [exact Hsent | exact Hfst].
Defined.

(** * The pages of the client *)

(** ** The broadcast dialog *)

Lemma includes_In sel d : PlaylistsPage.includes sel d = true <-> In d sel.
Proof.
  unfold PlaylistsPage.includes. rewrite existsb_exists. split.
  - intros (x & Hin & Hx). apply String.eqb_eq in Hx. now subst.
  - intros H. exists d. split; [exact H | apply String.eqb_refl].
Qed.

Lemma click_NoDup sel d : NoDup sel -> NoDup (PlaylistsPage.click sel d).
Proof.
  intros H. unfold PlaylistsPage.click, PlaylistsPage.onChange.
  destruct (PlaylistsPage.includes sel d) eqn:E; simpl.
  - now apply NoDup_filter.
  - assert (Hn : ~ In d sel).
    { intros Hin. apply includes_In in Hin. congruence. }
    apply NoDup_rev in H. rewrite <- (rev_involutive (sel ++ [d])).
    apply NoDup_rev. rewrite rev_app_distr. simpl. constructor; [|exact H].
    now rewrite <- in_rev.
Qed.

Lemma click_In sel d x :
  In x (PlaylistsPage.click sel d) <->
  (if String.eqb x d then ~ In d sel else In x sel).
Proof.
  unfold PlaylistsPage.click, PlaylistsPage.onChange.
  destruct (PlaylistsPage.includes sel d) eqn:E; simpl.
  - apply includes_In in E. rewrite filter_In.
    destruct (String.eqb x d) eqn:Ex; simpl.
    + split; [intros [_ H]; discriminate | intros H; contradiction].
    + split; [tauto | intros H; auto].
  - assert (Hn : ~ In d sel).
    { intros Hin. apply includes_In in Hin. congruence. }
    rewrite in_app_iff. simpl. destruct (String.eqb x d) eqn:Ex.
    + apply String.eqb_eq in Ex. subst x. tauto.
    + apply String.eqb_neq in Ex. split; [intros [H|[H|[]]]; congruence | tauto].
Qed.

Lemma clicks_spec deviceKeys : forall sel, NoDup sel ->
  NoDup (PlaylistsPage.clicks deviceKeys sel) /\
  (forall d, In d (PlaylistsPage.clicks deviceKeys sel) <->
             xorb (PlaylistsPage.includes sel d)
                  (Nat.odd (count_occ string_dec deviceKeys d)) = true).
Proof.
  induction deviceKeys as [|k rest IH]; intros sel Hnd; simpl.
  - split; [exact Hnd|]. intros d. rewrite xorb_false_r. symmetry. apply includes_In.
  - destruct (IH _ (click_NoDup sel k Hnd)) as [Hn Hin]. split; [exact Hn|].
    intros d. rewrite Hin.
    assert (Hinc : PlaylistsPage.includes (PlaylistsPage.click sel k) d =
                   if String.eqb d k then negb (PlaylistsPage.includes sel k)
                   else PlaylistsPage.includes sel d).
    { pose proof (click_In sel k d) as Hc.
      destruct (String.eqb d k) eqn:Ed.
      - apply String.eqb_eq in Ed. subst d.
        destruct (PlaylistsPage.includes (PlaylistsPage.click sel k) k) eqn:E1;
          destruct (PlaylistsPage.includes sel k) eqn:E2; simpl; try reflexivity.
        + apply includes_In in E1, E2. tauto.
        + assert (In k (PlaylistsPage.click sel k)).
          { apply Hc. intros Hk. apply includes_In in Hk. congruence. }
          apply includes_In in H. congruence.
      - destruct (PlaylistsPage.includes (PlaylistsPage.click sel k) d) eqn:E1;
          destruct (PlaylistsPage.includes sel d) eqn:E2; try reflexivity.
        + apply includes_In in E1. apply Hc in E1. apply includes_In in E1. congruence.
        + apply includes_In in E2. apply Hc in E2. apply includes_In in E2. congruence. }
    rewrite Hinc. destruct (string_dec k d) as [->|Hne].
    + rewrite String.eqb_refl, Nat.odd_succ, <- Nat.negb_odd.
      destruct (PlaylistsPage.includes sel d), (Nat.odd (count_occ string_dec rest d));
        simpl; tauto.
    + assert (Ed : String.eqb d k = false) by (apply String.eqb_neq; congruence).
      rewrite Ed. tauto.
Qed.

(** X12: in the broadcast dialog, whatever boxes are clicked and however
    often, the selection never holds a device key twice, and a device key is
    in the selection exactly when its box has been clicked an odd number of
    times. *)
Theorem selection_is_duplicate_free deviceKeys :
  NoDup (PlaylistsPage.clicks deviceKeys []) /\
  (forall d, In d (PlaylistsPage.clicks deviceKeys []) <->
             Nat.odd (count_occ string_dec deviceKeys d) = true).
Proof.
  destruct (clicks_spec deviceKeys [] (NoDup_nil _)) as [Hn Hin]. split; [exact Hn|].
  intros d. rewrite Hin. simpl. tauto.
Qed.

Lemma selection_is_duplicate_free_witness :
  PlaylistsPage.clicks ["A"; "B"; "A"; "C"; "A"] [] = ["B"; "C"; "A"] /\
  In "A" (PlaylistsPage.clicks ["A"; "B"; "A"; "C"; "A"] []).
Proof.
  split; [reflexivity|].
  apply (proj2 (selection_is_duplicate_free ["A"; "B"; "A"; "C"; "A"])). reflexivity.
Defined.

(** X13: the dialog and the route together.  When the list posted is the
    selection built by clicks, the route reaches the loop and no send
    raises, then every selected device key that is mapped to an open socket,
    and is the only selected key on that socket, gets exactly one frame, the
    serialization of the playlist; and [handleBroadcast] posts nothing for an
    empty selection. *)
Theorem dialog_broadcast_hands_one_frame_each
    JSON_stringify req s deviceKeys playlist :
  has_organization req = true ->
  validated_screenIds req = Some (PlaylistsPage.clicks deviceKeys []) ->
  playlist_found req = Some playlist ->
  (forall id ws, In id (PlaylistsPage.clicks deviceKeys []) ->
                 deliverable s id = Some ws -> send_throws req ws = false) ->
  (forall id ws,
     In id (PlaylistsPage.clicks deviceKeys []) ->
     deliverable s id = Some ws ->
     (forall other, In other (PlaylistsPage.clicks deviceKeys []) ->
                    deliverable s other = Some ws -> other = id) ->
     frames_to ws (sent_by (post_broadcasts JSON_stringify req) s) =
     [(ws, JSON_stringify (load_playlist playlist (broadcast_id req)))]) /\
  (forall selectedPlaylist, PlaylistsPage.handleBroadcast selectedPlaylist [] = None).
Proof.
  intros Horg Hv Hp Hok. split; [|intros [p|]; reflexivity].
  intros id ws Hin Hd Halone.
  unfold sent_by. rewrite (post_broadcasts_loop _ _ _ _ _ Horg Hv Hp).
  set (message := JSON_stringify (load_playlist playlist (broadcast_id req))).
  set (s1 := mkServer (screenConnections s) (sockets s) (outbox s)
                      (storage_calls s ++
                         [createBroadcast_call (PlaylistsPage.clicks deviceKeys [])])
                      (console s) (closeListeners s)).
  rewrite (forEach_complete (send_throws req) message _ s1 Hok).
  simpl. rewrite skipn_app_exact.
  apply (frames_to_once s1 message _ id ws); auto.
  apply clicks_spec. constructor.
Qed.

Lemma dialog_broadcast_hands_one_frame_each_witness :
  let s := Routes.run [Connection 1;
                       Message 1 (Some (player_register (VStr "A"))) true] initial in
  let req := mkRequest true (Some ["A"]) (Some (mkPlaylistRow 9 [])) "b" (fun _ => false) in
  frames_to 1 (sent_by (post_broadcasts (fun _ => "frame") req) s) = [(1, "frame")].
Proof.
  intros s req.
  destruct (dialog_broadcast_hands_one_frame_each (fun _ => "frame") req s
              ["A"; "B"; "B"] (mkPlaylistRow 9 []) eq_refl eq_refl eq_refl (fun _ _ _ _ => eq_refl))
    as [H _].
  apply (H "A" 1); [now left | reflexivity |].
  intros other [<-|[]] _. reflexivity.
Defined.

(** ** The player page *)

Module PlayerFacts.
Import Player.

Lemma length_or_1_nonempty p :
  items p <> [] -> length_or_1 (Some p) = List.length (items p).
Proof.
  intros H. unfold length_or_1. destruct (items p); [contradiction | reflexivity].
Qed.

Lemma next_mod_nonempty i n : n <> 0 -> next_mod (Some i) n = Some (Nat.modulo (S i) n).
Proof.
  intros H. unfold next_mod. apply Nat.eqb_neq in H. now rewrite H.
Qed.

Lemma nonempty_length (p : Playlist) i : i < List.length (items p) -> items p <> [].
Proof. destruct (items p); simpl; [lia | discriminate]. Qed.

(** A tick that finds more than one second left only counts down. *)
Lemma tick_counts_down st :
  (1 < timeRemaining st)%Z ->
  tick st = mkState (currentPlaylist st) (currentIndex st) (isPlaying st)
                    (timeRemaining st - 1)%Z.
Proof.
  intros H. unfold tick. destruct (Z.leb_spec (timeRemaining st) 1); [lia | reflexivity].
Qed.

(** A tick that finds one second or less left moves to the next item. *)
Lemma tick_advances p i st :
  on_item p i st -> (timeRemaining st <= 1)%Z ->
  tick st = mkState (Some p) (Some (Nat.modulo (S i) (List.length (items p))))
                    (isPlaying st)
                    (duration_or_10
                       (nth_error (items p) (Nat.modulo (S i) (List.length (items p))))).
Proof.
  intros (Hp & Hi & Hlt) H. unfold tick.
  destruct (Z.leb_spec (timeRemaining st) 1); [|lia].
  rewrite Hp, Hi, (length_or_1_nonempty p (nonempty_length p i Hlt)).
  rewrite next_mod_nonempty by lia. reflexivity.
Qed.

Lemma iter_countdown k : forall st,
  (Z.of_nat k < timeRemaining st)%Z ->
  Nat.iter k tick st =
  mkState (currentPlaylist st) (currentIndex st) (isPlaying st)
          (timeRemaining st - Z.of_nat k)%Z.
Proof.
  induction k as [|k IH]; intros st H.
  - simpl. destruct st; simpl. f_equal. lia.
  - rewrite Nat.iter_succ. rewrite IH by lia.
    rewrite tick_counts_down by (simpl; lia). simpl. f_equal. lia.
Qed.

(** X14: on a playlist that has items, neither the ticks, nor the [Next]
    button, nor play and pause ever move [currentIndex] out of the list or
    change the playlist. *)
Theorem index_stays_in_range p i st actions :
  on_item p i st ->
  exists j, on_item p j (fold_left apply actions st).
Proof.
  revert i st. induction actions as [|a rest IH]; intros i st Hon; simpl; [eauto|].
  destruct Hon as (Hp & Hi & Hlt).
  assert (Hne : List.length (items p) <> 0) by lia.
  assert (Hstep : exists j, on_item p j (apply st a)).
  { destruct a; simpl.
    - unfold tick. destruct (Z.leb (timeRemaining st) 1).
      + rewrite Hp, Hi, (length_or_1_nonempty p (nonempty_length p i Hlt)).
        rewrite next_mod_nonempty by exact Hne.
        eexists. repeat split. simpl. now apply Nat.mod_upper_bound.
      + exists i. repeat split; assumption.
    - unfold nextItem. rewrite Hp, Hi. rewrite next_mod_nonempty by exact Hne.
      eexists. repeat split. simpl. now apply Nat.mod_upper_bound.
    - exists i. repeat split; assumption. }
  destruct Hstep as [j Hj]. eapply IH; eauto.
Qed.

Lemma index_stays_in_range_witness :
  let p := mkPlaylist [mkItem 5; mkItem 0; mkItem 3] in
  exists j, on_item p j (fold_left apply [Next; Tick; Next; Next; Toggle]
                                   (loadPlaylist p initialState)).
Proof.
  intros p.
  apply (index_stays_in_range p 0 (loadPlaylist p initialState)).
  repeat split. simpl. lia.
Defined.

(** The ticks spent on one item, and the tick that leaves it. *)
Lemma ticks_on_item p i st :
  on_item p i st ->
  let n := Z.to_nat (Z.max 1 (timeRemaining st)) in
  (forall k, k < n ->
     Nat.iter k tick st =
     mkState (Some p) (Some i) (isPlaying st) (timeRemaining st - Z.of_nat k)%Z) /\
  Nat.iter n tick st =
    mkState (Some p) (Some (Nat.modulo (S i) (List.length (items p)))) (isPlaying st)
            (duration_or_10
               (nth_error (items p) (Nat.modulo (S i) (List.length (items p))))).
Proof.
  intros Hon n. pose proof Hon as (Hp & Hi & Hlt).
  assert (Hcount : forall k, k < n ->
            Nat.iter k tick st =
            mkState (Some p) (Some i) (isPlaying st) (timeRemaining st - Z.of_nat k)%Z).
  { intros k Hk. destruct k as [|k].
    - simpl. destruct st; simpl in *. subst. f_equal. lia.
    - rewrite iter_countdown by (subst n; lia). now rewrite Hp, Hi. }
  split; [exact Hcount|].
  assert (Hn : n = S (pred n)) by (subst n; lia).
  rewrite Hn, Nat.iter_succ, (Hcount (pred n)) by lia.
  rewrite (tick_advances p i); [reflexivity | repeat split; auto |].
  simpl. subst n. lia.
Qed.

(** X15: an item is on screen for as many ticks as its [timeRemaining]
    said when it was entered, and for one tick when that is below one: until
    then the index stays and the time left goes down by one a tick; the tick
    after that enters the next item, the first one after the last, with that
    item's duration, or 10 when it has none or zero. *)
Theorem item_is_shown_for_its_time p i st :
  on_item p i st ->
  let n := Z.to_nat (Z.max 1 (timeRemaining st)) in
  (forall k, k < n ->
     Nat.iter k tick st =
     mkState (Some p) (Some i) (isPlaying st) (timeRemaining st - Z.of_nat k)%Z) /\
  Nat.iter n tick st =
    mkState (Some p) (Some (Nat.modulo (S i) (List.length (items p)))) (isPlaying st)
            (duration_or_10
               (nth_error (items p) (Nat.modulo (S i) (List.length (items p))))).
Proof. exact (ticks_on_item p i st). Qed.

Lemma item_is_shown_for_its_time_witness :
  let p := mkPlaylist [mkItem 3; mkItem 7] in
  Nat.iter 3 tick (loadPlaylist p initialState) = mkState (Some p) (Some 1) true 7.
Proof.
  intros p.
  destruct (item_is_shown_for_its_time p 0 (loadPlaylist p initialState)) as [_ H].
  - repeat split. simpl. lia.
  - exact H.
Defined.

(** X16: after a [LOAD_PLAYLIST] the player goes round the playlist for
    ever: when the ticks of the first [m] items in turn have passed, it
    stands on item [m mod length], with that item's time ahead of it. *)
Theorem playback_goes_round p prev m :
  items p <> [] ->
  Nat.iter (ticks_through p m) tick (loadPlaylist p prev) =
  mkState (Some p) (Some (Nat.modulo m (List.length (items p)))) true
          (duration_or_10 (nth_error (items p) (Nat.modulo m (List.length (items p))))).
Proof.
  intros Hne.
  assert (Hlen : List.length (items p) <> 0) by (destruct (items p); simpl; congruence).
  induction m as [|m IH].
  - cbn [ticks_through Nat.iter nat_rect]. rewrite Nat.Div0.mod_0_l. reflexivity.
  - cbn [ticks_through]. rewrite Nat.add_comm, Nat.iter_add, IH.
    set (i := Nat.modulo m (List.length (items p))).
    set (st := mkState (Some p) (Some i) true (duration_or_10 (nth_error (items p) i))).
    assert (Hon : on_item p i st).
    { repeat split. subst i. now apply Nat.mod_upper_bound. }
    destruct (ticks_on_item p i st Hon) as [_ H].
    cbv zeta in H. unfold shown. change (timeRemaining st)
      with (duration_or_10 (nth_error (items p) i)) in H.
    change (isPlaying st) with true in H. rewrite H.
    assert (Hmod : Nat.modulo (S i) (List.length (items p)) =
                   Nat.modulo (S m) (List.length (items p))).
    { subst i. replace (S m) with (m + 1) by lia.
      replace (S (Nat.modulo m (List.length (items p))))
        with (Nat.modulo m (List.length (items p)) + 1) by lia.
      apply Nat.Div0.add_mod_idemp_l. }
    now rewrite Hmod.
Qed.

Lemma playback_goes_round_witness :
  let p := mkPlaylist [mkItem 2; mkItem 0; mkItem (-4)] in
  ticks_through p 3 = 13 /\
  Nat.iter 13 tick (loadPlaylist p initialState) = mkState (Some p) (Some 0) true 2.
Proof.
  intros p. split; [reflexivity|].
  exact (playback_goes_round p initialState 3 ltac:(discriminate)).
Defined.

(** X17: on a playlist without items the two ways forward differ.  The
    tick keeps [currentIndex] at 0; the [Next] button divides by the length
    and leaves [NaN], and from then on no tick, [Next] or pause brings a
    number back. *)
Theorem next_on_empty_playlist_loses_index p st actions :
  currentPlaylist st = Some p -> items p = [] ->
  (currentIndex st = Some 0 -> currentIndex (tick st) = Some 0) /\
  currentIndex (nextItem st) = None /\
  currentIndex (fold_left apply actions (nextItem st)) = None.
Proof.
  intros Hp He. split; [|split].
  - intros Hi. unfold tick. destruct (Z.leb (timeRemaining st) 1); [|exact Hi].
    rewrite Hp, Hi. unfold length_or_1. rewrite He. reflexivity.
  - unfold nextItem. rewrite Hp, He. simpl. now destruct (currentIndex st).
  - assert (H : forall st', currentIndex st' = None ->
                            currentIndex (fold_left apply actions st') = None).
    { induction actions as [|a rest IH]; intros st' Hn; simpl; [exact Hn|].
      apply IH. destruct a; simpl.
      - unfold tick. destruct (Z.leb (timeRemaining st') 1); simpl; [|exact Hn].
        now rewrite Hn.
      - unfold nextItem. destruct (currentPlaylist st'); simpl; [|exact Hn].
        now rewrite Hn.
      - exact Hn. }
    apply H. unfold nextItem. rewrite Hp, He. simpl. now destruct (currentIndex st).
Qed.

Lemma next_on_empty_playlist_loses_index_witness :
  let p := mkPlaylist [] in
  currentIndex (fold_left apply [Tick; Next; Tick]
                          (nextItem (loadPlaylist p initialState))) = None.
Proof.
  intros p.
  destruct (next_on_empty_playlist_loses_index p (loadPlaylist p initialState)
              [Tick; Next; Tick] eq_refl eq_refl) as (_ & _ & H).
  exact H.
Defined.

End PlayerFacts.

(** ** The [useWebSocket] hook *)

Module WebSocketHookFacts.
Import WebSocketHook.

Lemma backoff_range k :
  k < maxReconnectAttempts -> (1000 <= backoff k <= 16000)%Z.
Proof.
  unfold maxReconnectAttempts, backoff. intros H.
  do 5 (destruct k as [|k]; [simpl; lia|]). lia.
Qed.

Lemma step_timers_bounded JSON_stringify h e :
  timers_bounded h -> timers_bounded (step JSON_stringify h e).
Proof.
  unfold timers_bounded. intros H.
  assert (Hclear : forall id0 h0,
            (forall id delay, In (id, delay) (timers h0) ->
                              exists k, k < maxReconnectAttempts /\ delay = backoff k) ->
            forall id delay, In (id, delay) (timers (clearTimeout id0 h0)) ->
                             exists k, k < maxReconnectAttempts /\ delay = backoff k).
  { intros id0 h0 H0 id delay Hin. simpl in Hin. apply filter_In in Hin.
    apply (H0 id delay). tauto. }
  assert (Hcref : forall id delay, In (id, delay) (timers (clear_ref h)) ->
                                   exists k, k < maxReconnectAttempts /\ delay = backoff k).
  { unfold clear_ref. destruct (reconnectTimeoutRef h); [now apply Hclear | exact H]. }
  destruct e as [ws|ws data|ws code|ws|id|message| | |]; simpl.
  - exact H.
  - destruct data; exact H.
  - unfold onclose. simpl.
    destruct (negb (Z.eqb code 1000) && Nat.ltb (reconnectAttempts h) maxReconnectAttempts)
      eqn:E; simpl; [|exact H].
    intros id delay Hin. apply in_app_or in Hin. destruct Hin as [Hin|[[= <- <-]|[]]].
    + eauto.
    + apply andb_prop in E. destruct E as [_ E]. apply Nat.ltb_lt in E. eauto.
  - exact H.
  - destruct (pending id h); [|exact H]. simpl. now apply Hclear.
  - unfold sendMessage. destruct (socket h); [destruct (is_open _)|]; exact H.
  - unfold disconnect.
    destruct (socket (clear_ref h)); [destruct (is_open _)|]; exact Hcref.
  - exact H.
  - unfold cleanup. destruct (is_open _); exact Hcref.
Qed.

(** X18: whatever the sockets, the timers and the component do after the
    mount, a reconnection is never set to wait less than one second or more
    than sixteen: every pending timeout waits [2^k] seconds for some [k]
    below five. *)
Theorem reconnect_delay_is_bounded JSON_stringify trace id delay :
  In (id, delay) (timers (run JSON_stringify trace mounted)) ->
  (exists k, k < maxReconnectAttempts /\ delay = backoff k) /\
  (1000 <= delay <= 16000)%Z.
Proof.
  assert (H : forall h, timers_bounded h -> timers_bounded (run JSON_stringify trace h)).
  { induction trace as [|e trace IH]; intros h Hh; simpl; [exact Hh|].
    apply IH. now apply step_timers_bounded. }
  intros Hin. assert (Hm : timers_bounded mounted) by (intros ? ? []).
  destruct (H mounted Hm id delay Hin) as (k & Hk & ->).
  split; [eauto | now apply backoff_range].
Qed.

Lemma reconnect_delay_is_bounded_witness :
  In (2, 2000%Z)
     (timers (run (fun _ => "m") [Closed 0 1006; Timeout 1; Closed 1 1006] mounted)) /\
  (1000 <= 2000 <= 16000)%Z.
Proof.
  assert (Hin : In (2, 2000%Z)
                   (timers (run (fun _ => "m") [Closed 0 1006; Timeout 1; Closed 1 1006]
                                mounted))) by (now left).
  split; [exact Hin|].
  exact (proj2 (reconnect_delay_is_bounded (fun _ => "m") _ 2 2000%Z Hin)).
Defined.

Lemma hook_run_app JSON_stringify t1 t2 h :
  run JSON_stringify (t1 ++ t2) h = run JSON_stringify t2 (run JSON_stringify t1 h).
Proof. apply fold_left_app. Qed.

(** One failed reconnection: the close sets the timeout, the timeout
    fires and makes the next socket. *)
Lemma failure_round JSON_stringify code h n :
  code <> 1000%Z -> n < maxReconnectAttempts ->
  reconnectAttempts h = n -> created h = S n -> timers h = [] -> next_timer h = S n ->
  let h' := step JSON_stringify (step JSON_stringify h (Closed n code)) (Timeout (S n)) in
  reconnectAttempts h' = S n /\ created h' = S (S n) /\ timers h' = [] /\
  next_timer h' = S (S n).
Proof.
  intros Hcode Hn Ha Hc Ht Hnt. apply Z.eqb_neq in Hcode. apply Nat.ltb_lt in Hn.
  destruct h as [so ic lm ref at_ cr rd tm nt se cc li]. simpl in *. subst.
  unfold onclose. simpl. rewrite Hcode, Hn. simpl.
  unfold pending. simpl. rewrite Nat.eqb_refl. simpl. rewrite Nat.eqb_refl. simpl.
  repeat split.
Qed.

Lemma failures_state JSON_stringify code n :
  code <> 1000%Z -> n <= maxReconnectAttempts ->
  let h := run JSON_stringify (failures code n) mounted in
  reconnectAttempts h = n /\ created h = S n /\ timers h = [] /\ next_timer h = S n.
Proof.
  intros Hcode. induction n as [|n IH]; intros Hn.
  - repeat split.
  - destruct IH as (Ha & Hc & Ht & Hnt); [lia|].
    cbn [failures]. cbv zeta. rewrite hook_run_app.
    apply (failure_round JSON_stringify code _ n Hcode); auto.
Qed.

(** X19: when every reconnection fails, the hook tries five times and
    then stops.  After [n] failures in a row, [n] up to five, the counter
    stands at [n], [n + 1] sockets have been made and no timeout is pending;
    the next close with a code other than 1000 sets a timeout of [2^n]
    seconds when [n] is below five, and sets nothing when [n] is five. *)
Theorem gives_up_after_five_failures JSON_stringify code n :
  code <> 1000%Z -> n <= maxReconnectAttempts ->
  let h := run JSON_stringify (failures code n) mounted in
  reconnectAttempts h = n /\
  created h = S n /\
  timers h = [] /\
  timers (step JSON_stringify h (Closed n code)) =
    (if Nat.ltb n maxReconnectAttempts then [(S n, backoff n)] else []) /\
  created (step JSON_stringify h (Closed n code)) = S n.
Proof.
  intros Hcode Hn h.
  destruct (failures_state JSON_stringify code n Hcode Hn) as (Ha & Hc & Ht & Hnt).
  fold h in Ha, Hc, Ht, Hnt. clearbody h. apply Z.eqb_neq in Hcode.
  destruct h as [so ic lm ref at_ cr rd tm nt se cc li]. simpl in *. subst.
  split; [reflexivity|]. split; [reflexivity|]. split; [reflexivity|].
  unfold onclose. simpl. rewrite Hcode. simpl.
  destruct (Nat.ltb _ maxReconnectAttempts); split; reflexivity.
Qed.

Lemma gives_up_after_five_failures_witness :
  let h := run (fun _ => "m") (failures 1006 5) mounted in
  reconnectAttempts h = 5 /\ timers (step (fun _ => "m") h (Closed 5 1006)) = [].
Proof.
  intros h.
  destruct (gives_up_after_five_failures (fun _ => "m") 1006%Z 5) as (Ha & _ & _ & Ht & _).
  - discriminate.
  - unfold maxReconnectAttempts. lia.
  - split; [exact Ha | exact Ht].
Defined.

(** X20: an open starts the backing off anew: it puts the counter back
    to zero, so the next close with a code other than 1000 sets a timeout of
    one second, whatever the counter had reached. *)
Theorem open_resets_the_backoff JSON_stringify h ws ws' code :
  code <> 1000%Z ->
  let opened := step JSON_stringify h (Open ws) in
  reconnectAttempts opened = 0 /\
  isConnected opened = true /\
  socket opened = Some ws /\
  timers (step JSON_stringify opened (Closed ws' code)) =
    timers h ++ [(next_timer h, 1000%Z)] /\
  isConnected (step JSON_stringify opened (Closed ws' code)) = false.
Proof.
  intros Hcode opened. apply Z.eqb_neq in Hcode. subst opened.
  cbn [step]. unfold onclose, onopen. cbn [reconnectAttempts with_ready].
  rewrite Hcode. cbn. repeat split.
Qed.

Lemma open_resets_the_backoff_witness :
  let h := run (fun _ => "m") (failures 1006 3) mounted in
  timers (run (fun _ => "m") [Open 3; Closed 3 1011] h) = [(4, 1000%Z)].
Proof.
  intros h.
  destruct (open_resets_the_backoff (fun _ => "m") h 3 3 1011%Z) as (_ & _ & _ & H & _).
  - discriminate.
  - exact H.
Defined.

(** X21: a close with code 1000 never sets a reconnection, whatever the
    counter; and [disconnect] takes the timeout named by the ref out of the
    pending ones, closes nothing but the current socket, with code 1000 and
    only when it is open, and makes no socket. *)
Theorem normal_close_ends_reconnecting JSON_stringify h ws :
  timers (step JSON_stringify h (Closed ws 1000)) = timers h /\
  created (step JSON_stringify h (Closed ws 1000)) = created h /\
  (forall id, reconnectTimeoutRef h = Some id ->
              pending id (step JSON_stringify h Disconnect) = false) /\
  created (step JSON_stringify h Disconnect) = created h /\
  close_calls (step JSON_stringify h Disconnect) =
    close_calls h ++
    match socket h with
    | Some current => if is_open (ready h current) then [(current, 1000%Z)] else []
    | None => []
    end.
Proof.
  split; [reflexivity|]. split; [reflexivity|].
  assert (Hc : socket (clear_ref h) = socket h /\ ready (clear_ref h) = ready h /\
               created (clear_ref h) = created h /\
               close_calls (clear_ref h) = close_calls h).
  { unfold clear_ref. destruct (reconnectTimeoutRef h); repeat split. }
  destruct Hc as (Hs & Hr & Hcr & Hcc).
  cbn [step]. unfold disconnect. rewrite Hs, Hr.
  split; [|split].
  - intros id Href.
    assert (Hp : pending id (clear_ref h) = false).
    { unfold clear_ref. rewrite Href. unfold pending, clearTimeout. cbn [timers].
      induction (timers h) as [|[i d] l IH]; [reflexivity|]. simpl.
      destruct (Nat.eqb i id) eqn:E; simpl; [exact IH|]. now rewrite E. }
    destruct (socket h) as [current|]; [|exact Hp].
    destruct (is_open (ready h current)); exact Hp.
  - destruct (socket h) as [current|]; [|exact Hcr].
    destruct (is_open (ready h current)); exact Hcr.
  - destruct (socket h) as [current|]; [|now rewrite app_nil_r].
    destruct (is_open (ready h current)); cbn; rewrite Hcc; [reflexivity|].
    now rewrite app_nil_r.
Qed.

Lemma normal_close_ends_reconnecting_witness :
  let h := run (fun _ => "m") [Closed 0 1006] mounted in
  pending 1 h = true /\ pending 1 (step (fun _ => "m") h Disconnect) = false.
Proof.
  intros h. split; [reflexivity|].
  destruct (normal_close_ends_reconnecting (fun _ => "m") h 0) as (_ & _ & H & _).
  apply H. reflexivity.
Defined.

End WebSocketHookFacts.
